(** * dyn-advisor: the catalog, the scorer and the recommender

    A shallow embedding of [dyn_advisor/parser.py], [dyn_advisor/catalog.py]
    and [dyn_advisor/recommender.py], and the properties of the
    specification that concern them.

    Modelling conventions.
    - Python [str] is [string]; the text model is ASCII: [lower] maps
      [A-Z] to [a-z] and leaves every other character alone, and the
      regular expression [\w] is the class [[A-Za-z0-9_]].
    - A Python [set] of strings is a [gset string]; its iteration order is
      an arbitrary enumeration of its elements, so the scorer takes the
      enumeration as an argument ([_score_graph_in]) and [_score_graph]
      fixes one of them.
    - The score is a Python [float] that only ever receives sums of
      [n * 10.0], [20.0], [n * 5.0], [n * 7.0], [n * 3.0] and [5.0] with [n]
      a length; such sums are integers and binary64 adds integers exactly
      (below 2^53), so the score is modelled in [Z].
    - Exceptions are values of [exn] threaded by the monad [M]; the file
      system is a record of functions ([FileSystem]).
    - The logger is unset ([self.logger = None]), as after construction. *)

From Stdlib Require Import ZArith List Ascii String DecimalString Permutation Lia.
From stdpp Require Import base tactics decidable option list strings gmap fin_sets sorting.
Import ListNotations.
Local Open Scope Z_scope.
Set Warnings "-register-all".

(** ** Text primitives of the Python runtime *)

Module Text.

Definition is_upper (c : ascii) : bool :=
  let n := nat_of_ascii c in (Nat.leb 65 n && Nat.leb n 90)%bool.

Definition is_word_char (c : ascii) : bool :=
  let n := nat_of_ascii c in
  ((Nat.leb 48 n && Nat.leb n 57) || (Nat.leb 65 n && Nat.leb n 90)
   || Nat.eqb n 95 || (Nat.leb 97 n && Nat.leb n 122))%bool.

Definition lower_char (c : ascii) : ascii :=
  if is_upper c then ascii_of_nat (nat_of_ascii c + 32) else c.

(** [s.lower()] *)
Fixpoint lower (s : string) : string :=
  match s with
  | EmptyString => EmptyString
  | String c s' => String (lower_char c) (lower s')
  end.

(** [needle in hay] on strings: [needle] occurs at some offset of [hay]. *)
Fixpoint contains (needle hay : string) : bool :=
  (String.prefix needle hay
   || match hay with
      | EmptyString => false
      | String _ hay' => contains needle hay'
      end)%bool.

Definition flush (cur : string) : list string :=
  match cur with EmptyString => [] | _ => [cur] end.

(** [re.findall(r'\w+', s)]: the maximal runs of word characters of [s],
    left to right; [cur] is the run being read. *)
Fixpoint findall_from (cur s : string) : list string :=
  match s with
  | EmptyString => flush cur
  | String c s' =>
      if is_word_char c then findall_from (cur +:+ String c EmptyString) s'
      else flush cur ++ findall_from EmptyString s'
  end.

Definition findall_words (s : string) : list string := findall_from EmptyString s.

(** [set(re.findall(r'\w+', s))] *)
Definition words (s : string) : gset string := list_to_set (findall_words s).

(** [sep.join(l)] *)
Fixpoint join (sep : string) (l : list string) : string :=
  match l with
  | [] => EmptyString
  | [x] => x
  | x :: l' => x +:+ sep +:+ join sep l'
  end.

(** [str(n)] for a non-negative [int], as in [f"{n}"]. *)
Definition str_of_nat (n : nat) : string := NilEmpty.string_of_uint (Nat.to_uint n).

(** [any(kw in text for kw in kws)] *)
Definition any_in (kws : list string) (text : string) : bool :=
  existsb (fun kw => contains kw text) kws.

(** [l[:k]] with Python's meaning of a negative bound. *)
Definition slice_to {A} (l : list A) (k : Z) : list A :=
  if 0 <=? k then take (Z.to_nat k) l
  else take (length l - Z.to_nat (- k))%nat l.

End Text.
Import Text.

(** ** Data model *)

(** The values [json.load] returns. *)
Inductive value : Type :=
| JNull
| JBool (b : bool)
| JInt (z : Z)
| JFloat (mantissa exponent : Z)
| JStr (s : string)
| JList (l : list value)
| JObj (items : list (string * value)).

(** [pathlib.Path]: the path as text with its [name] and [stem]. *)
Record Path := { path_str : string; path_name : string; path_stem : string }.

(** Exceptions ([Exception] subclasses) the parser can meet. *)
Inductive exn : Type :=
| JSONDecodeError
| OSError
| UnicodeDecodeError
| AttributeError
| TypeError.

Record NodeRef := { node_name : string; node_type : string; node_id : string }.

(** [GraphRecord] of the specification: the catalog entry the queries and
    the scorer read, with text fields that are strings. *)
Record Graph := {
  filepath : string;
  filename : string;
  name : string;
  description : string;
  uuid : string;
  author : string;
  category : string;
  nodes : list NodeRef;
  node_count : nat;
  connector_count : nat;
  view : option (value * value * value)
}.

(** One ranked result: [(graph, score, explanation)]. *)
Definition Result : Type := Graph * Z * string.

Definition result_graph (r : Result) : Graph := r.1.1.
Definition result_score (r : Result) : Z := r.1.2.
Definition result_explanation (r : Result) : string := r.2.

(** ** recommender.py *)

Module Recommender.

Definition complexity_keywords : list string :=
  ["complex"; "advanced"; "detailed"; "comprehensive"]%string.
Definition simplicity_keywords : list string :=
  ["simple"; "basic"; "easy"; "quick"; "minimal"]%string.

(** The two locals every block of [_score_graph] updates. *)
Record acc := { score : Z; reasons : list string }.

Definition add (a : acc) (points : Z) (reason : string) : acc :=
  {| score := score a + points; reasons := reasons a ++ [reason] |}.

(** [# Score name match (highest weight)] *)
Definition score_name (graph : Graph) (intent_words : gset string) (a : acc) : acc :=
  let name_lower := lower (name graph) in
  let name_words := words name_lower in
  let name_overlap := size (intent_words ∩ name_words) in
  if (0 <? name_overlap)%nat
  then add a (Z.of_nat name_overlap * 10) ("name matches '" +:+ name graph +:+ "'")
  else a.

(** [# Exact name match bonus] *)
Definition score_exact_name (graph : Graph) (intent_lower : string) (a : acc) : acc :=
  let name_lower := lower (name graph) in
  if (contains intent_lower name_lower || contains name_lower intent_lower)%bool
  then add a 20 "name closely matches query"
  else a.

(** [# Score description match] *)
Definition score_description (graph : Graph) (intent_words : gset string) (a : acc) : acc :=
  let description_lower := lower (description graph) in
  match description_lower with
  | EmptyString => a
  | _ =>
      let desc_words := words description_lower in
      let desc_overlap := size (intent_words ∩ desc_words) in
      if (0 <? desc_overlap)%nat
      then add a (Z.of_nat desc_overlap * 5) "description contains relevant keywords"
      else a
  end.

(** [# Score category match] *)
Definition score_category (graph : Graph) (intent_words : gset string) (a : acc) : acc :=
  let category_lower := lower (category graph) in
  let category_words := words category_lower in
  let category_overlap := size (intent_words ∩ category_words) in
  if (0 <? category_overlap)%nat
  then add a (Z.of_nat category_overlap * 7) ("category '" +:+ category graph +:+ "' matches")
  else a.

(** [for word in intent_words: if ...: node_matches += 1; break], with
    [ws] the order in which the set is iterated. *)
Fixpoint scan_words (ws : list string) (node_name_lower node_type_lower : string)
    (node_matches : nat) : nat :=
  match ws with
  | [] => node_matches
  | word :: ws' =>
      if (contains word node_name_lower || contains word node_type_lower)%bool
      then S node_matches
      else scan_words ws' node_name_lower node_type_lower node_matches
  end.

(** [for node in graph['nodes']: ...] *)
Fixpoint scan_nodes (ws : list string) (ns : list NodeRef) (node_matches : nat) : nat :=
  match ns with
  | [] => node_matches
  | node :: ns' =>
      scan_nodes ws ns'
        (scan_words ws (lower (node_name node)) (lower (node_type node)) node_matches)
  end.

(** [# Score node type matches] *)
Definition score_nodes (graph : Graph) (ws : list string) (a : acc) : acc :=
  let node_matches := scan_nodes ws (nodes graph) 0%nat in
  if (0 <? node_matches)%nat
  then add a (Z.of_nat node_matches * 3)
         ("contains " +:+ str_of_nat node_matches +:+ " relevant node(s)")
  else a.

(** [# Complexity bonus for certain keywords] *)
Definition score_complexity (graph : Graph) (intent_lower : string) (a : acc) : acc :=
  if any_in complexity_keywords intent_lower then
    if (10 <? node_count graph)%nat
    then add a 5 ("complex graph with " +:+ str_of_nat (node_count graph) +:+ " nodes")
    else a
  else a.

(** [# Simplicity bonus for certain keywords] *)
Definition score_simplicity (graph : Graph) (intent_lower : string) (a : acc) : acc :=
  if any_in simplicity_keywords intent_lower then
    if (node_count graph <=? 5)%nat
    then add a 5 ("simple graph with " +:+ str_of_nat (node_count graph) +:+ " nodes")
    else a
  else a.

(** [# Generate explanation] *)
Definition explanation_of (reasons : list string) : string :=
  match reasons with
  | [] => "No specific match found."
  | _ => "Recommended because " +:+ join ", " reasons +:+ "."
  end.

(** [RecommendationEngine._score_graph], with [ws] the order in which the
    runtime iterates over [intent_words]. *)
Definition _score_graph_in (ws : list string) (graph : Graph) (user_intent : string)
    : Z * string :=
  let a := {| score := 0; reasons := [] |} in
  let intent_lower := lower user_intent in
  let intent_words := words intent_lower in
  let a := score_name graph intent_words a in
  let a := score_exact_name graph intent_lower a in
  let a := score_description graph intent_words a in
  let a := score_category graph intent_words a in
  let a := score_nodes graph ws a in
  let a := score_complexity graph intent_lower a in
  let a := score_simplicity graph intent_lower a in
  (score a, explanation_of (reasons a)).

Definition _score_graph (graph : Graph) (user_intent : string) : Z * string :=
  _score_graph_in (elements (words (lower user_intent))) graph user_intent.

(** [# Score each graph]: the loop that fills [scored_graphs]. *)
Fixpoint score_each (graphs : list Graph) (user_intent : string)
    (scored_graphs : list Result) : list Result :=
  match graphs with
  | [] => scored_graphs
  | graph :: graphs' =>
      let '(score, explanation) := _score_graph graph user_intent in
      score_each graphs' user_intent
        (if 0 <? score then scored_graphs ++ [(graph, score, explanation)]
         else scored_graphs)
  end.

(** [list.sort(key=..., reverse=True)] is the runtime's stable sort; the
    stable descending arrangement of a list is unique
    ([stable_desc_unique] below), and insertion from the right computes it. *)
Fixpoint insert_desc {A} (key : A -> Z) (x : A) (l : list A) : list A :=
  match l with
  | [] => [x]
  | y :: l' => if key x <? key y then y :: insert_desc key x l' else x :: y :: l'
  end.

Definition sort_desc {A} (key : A -> Z) (l : list A) : list A :=
  foldr (insert_desc key) [] l.

(** [RecommendationEngine.recommend]; [graphs] is
    [self.catalog.get_all_graphs()]. *)
Definition recommend (graphs : list Graph) (user_intent : string) (max_results : Z)
    : list Result :=
  match graphs with
  | [] => []
  | _ =>
      let scored_graphs := score_each graphs user_intent [] in
      let scored_graphs := sort_desc result_score scored_graphs in
      slice_to scored_graphs max_results
  end.

End Recommender.
Import Recommender.

(** ** parser.py *)

Module Parser.

(** Computations that return a value or raise. *)
Definition M (A : Type) : Type := exn + A.
Definition ret {A} (x : A) : M A := inr x.
Definition raise {A} (e : exn) : M A := inl e.
Definition bind {A B} (m : M A) (k : A -> M B) : M B :=
  match m with
  | inl e => inl e
  | inr x => k x
  end.
(** [try: m  except Exception as e: handler e] *)
Definition try_except {A} (m : M A) (handler : exn -> M A) : M A :=
  match m with
  | inl e => handler e
  | inr x => inr x
  end.

Declare Scope monad_scope.
Delimit Scope monad_scope with M.
Notation "'let*' x ':=' m 'in' k" := (bind m (fun x => k))
  (at level 10, x name, m at level 200, k at level 200) : monad_scope.
Local Open Scope monad_scope.

(** What the parser and the catalog see of the disk: [p.exists()],
    [list(p.rglob(pattern))], [json.load(open(p))] and [open(p).read()], each
    raising as the runtime does. [exists] answers [False] for a missing
    path and raises the [OSError] of any other failure (permission denied,
    name too long), and so may a walk; the last two raise for a missing
    file, undecodable bytes or malformed JSON. *)
Record FileSystem := {
  fs_exists : Path -> M bool;
  fs_rglob : Path -> string -> M (list Path);
  fs_load_json : Path -> M value;
  fs_read_text : Path -> M string
}.

Record node_info := { ni_name : value; ni_type : value; ni_id : value }.

(** The [metadata] dictionary; a text field holds whatever JSON value the
    file gave for its key. *)
Record metadata := {
  md_filepath : string;
  md_filename : string;
  md_name : value;
  md_description : value;
  md_uuid : value;
  md_author : value;
  md_category : value;
  md_nodes : list node_info;
  md_node_count : nat;
  md_connector_count : nat;
  md_view : option (value * value * value)
}.

Record doc_metadata := {
  doc_filepath : string;
  doc_filename : string;
  doc_content : string;
  doc_size : nat
}.

(** Lookup in a loaded JSON object. *)
Fixpoint dict_lookup (key : string) (items : list (string * value)) : option value :=
  match items with
  | [] => None
  | (k, v) :: items' => if String.eqb k key then Some v else dict_lookup key items'
  end.

(** [v.get(key, dflt)]: only a [dict] has the method. *)
Definition get (v : value) (key : string) (dflt : value) : M value :=
  match v with
  | JObj items => ret (default dflt (dict_lookup key items))
  | _ => raise AttributeError
  end.

(** [v[key] if key in v], for [v] a [dict]. *)
Definition item (v : value) (key : string) : option value :=
  match v with
  | JObj items => dict_lookup key items
  | _ => None
  end.

(** The body of [for node in content['Nodes']]. *)
Definition node_info_of (node : value) : option node_info :=
  match node with
  | JObj items =>
      Some {| ni_name := default (JStr EmptyString) (dict_lookup "Name" items);
              ni_type := default (JStr EmptyString) (dict_lookup "ConcreteType" items);
              ni_id := default (JStr EmptyString) (dict_lookup "Id" items) |}
  | _ => None
  end.

(** [# Extract view information] *)
Definition view_of (content : value) : M (option (value * value * value)) :=
  match item content "View" with
  | Some view =>
      let* x := get view "X" (JInt 0) in
      let* y := get view "Y" (JInt 0) in
      let* zoom := get view "Zoom" (JFloat 1 0) in
      ret (Some (x, y, zoom))
  | None => ret None
  end.

(** The [try] block of [parse_dyn_file]. *)
Definition parse_dyn_try (fs : FileSystem) (filepath : Path) : M metadata :=
  let* content := fs_load_json fs filepath in
  let* name := get content "Name" (JStr (path_stem filepath)) in
  let* description := get content "Description" (JStr EmptyString) in
  let* uuid := get content "Uuid" (JStr EmptyString) in
  let* author := get content "Author" (JStr EmptyString) in
  let* category := get content "Category" (JStr "Uncategorized") in
  let '(nodes, node_count) :=
    match item content "Nodes" with
    | Some (JList l) => (omap node_info_of l, length l)
    | _ => ([], 0%nat)
    end in
  let connector_count :=
    match item content "Connectors" with
    | Some (JList l) => length l
    | _ => 0%nat
    end in
  let* view := view_of content in
  ret {| md_filepath := path_str filepath; md_filename := path_name filepath;
         md_name := name; md_description := description; md_uuid := uuid;
         md_author := author; md_category := category;
         md_nodes := nodes; md_node_count := node_count;
         md_connector_count := connector_count; md_view := view |}.

(** [DynParser.parse_dyn_file]: [None] is Python's [None]. *)
Definition parse_dyn_file (fs : FileSystem) (filepath : Path) : M (option metadata) :=
  try_except
    (let* metadata := parse_dyn_try fs filepath in ret (Some metadata))
    (fun e =>
       match e with
       | JSONDecodeError => ret None
       | _ => ret None
       end).

(** [DynParser.parse_documentation]: [None] is the empty dictionary. *)
Definition parse_documentation (fs : FileSystem) (doc_path : Path)
    : M (option doc_metadata) :=
  try_except
    (let* found := fs_exists fs doc_path in
     if negb found then ret None
     else
       let* content := fs_read_text fs doc_path in
       ret (Some {| doc_filepath := path_str doc_path;
                    doc_filename := path_name doc_path;
                    doc_content := content;
                    doc_size := String.length content |}))
    (fun _ => ret None).

(** A [metadata] whose text fields are all strings is a [Graph]. *)
Definition as_string (v : value) : option string :=
  match v with JStr s => Some s | _ => None end.

Definition as_node (n : node_info) : option NodeRef :=
  match as_string (ni_name n), as_string (ni_type n), as_string (ni_id n) with
  | Some a, Some b, Some c => Some {| node_name := a; node_type := b; node_id := c |}
  | _, _, _ => None
  end.

Definition as_graph (m : metadata) : option Graph :=
  match as_string (md_name m), as_string (md_description m), as_string (md_uuid m),
        as_string (md_author m), as_string (md_category m), mapM as_node (md_nodes m) with
  | Some n, Some d, Some u, Some a, Some c, Some ns =>
      Some {| filepath := md_filepath m; filename := md_filename m; name := n;
              description := d; uuid := u; author := a; category := c; nodes := ns;
              node_count := md_node_count m; connector_count := md_connector_count m;
              view := md_view m |}
  | _, _, _, _, _, _ => None
  end.

End Parser.
Import Parser.
Local Open Scope monad_scope.

(** ** catalog.py *)

Module Catalog.

Record GraphCatalog := {
  graph_repo_path : Path;
  docs_path : option Path;
  graphs : list metadata;
  docs : list doc_metadata
}.

(** [GraphCatalog.__init__] *)
Definition init (graph_repo_path : Path) (docs_path : option Path) : GraphCatalog :=
  {| graph_repo_path := graph_repo_path; docs_path := docs_path;
     graphs := []; docs := [] |}.

Definition set_graphs (self : GraphCatalog) (gs : list metadata) : GraphCatalog :=
  {| graph_repo_path := graph_repo_path self; docs_path := docs_path self;
     graphs := gs; docs := docs self |}.

Definition set_docs (self : GraphCatalog) (ds : list doc_metadata) : GraphCatalog :=
  {| graph_repo_path := graph_repo_path self; docs_path := docs_path self;
     graphs := graphs self; docs := ds |}.

(** [# Parse each .dyn file] *)
Fixpoint parse_each (fs : FileSystem) (dyn_files : list Path) (self : GraphCatalog)
    : M GraphCatalog :=
  match dyn_files with
  | [] => ret self
  | dyn_file :: rest =>
      let* metadata := parse_dyn_file fs dyn_file in
      parse_each fs rest
        (match metadata with
         | Some m => set_graphs self (graphs self ++ [m])
         | None => self
         end)
  end.

(** The loop over [doc_files]. *)
Fixpoint document_each (fs : FileSystem) (doc_files : list Path) (self : GraphCatalog)
    : M GraphCatalog :=
  match doc_files with
  | [] => ret self
  | doc_file :: rest =>
      let* doc_metadata := parse_documentation fs doc_file in
      document_each fs rest
        (match doc_metadata with
         | Some d => set_docs self (docs self ++ [d])
         | None => self
         end)
  end.

(** [# Index documentation if available] *)
Definition index_docs (fs : FileSystem) (self : GraphCatalog) : M GraphCatalog :=
  match docs_path self with
  | Some dp =>
      let* found := fs_exists fs dp in
      if found then
        let* md_files := fs_rglob fs dp "*.md" in
        let* txt_files := fs_rglob fs dp "*.txt" in
        document_each fs (md_files ++ txt_files) self
      else ret self
  | None => ret self
  end.

(** [GraphCatalog.build_catalog]: the catalog after the call and the
    returned count, or the exception that reaches the caller. The checks
    and walks of the disk stand outside any [try]. *)
Definition build_catalog (fs : FileSystem) (self : GraphCatalog)
    : M (GraphCatalog * nat) :=
  let self := set_graphs self [] in
  let* found := fs_exists fs (graph_repo_path self) in
  if negb found then ret (self, 0%nat)
  else
    let* dyn_files := fs_rglob fs (graph_repo_path self) "*.dyn" in
    let* self := parse_each fs dyn_files self in
    let* self := index_docs fs self in
    ret (self, length (graphs self)).

(** [GraphCatalog.get_graph_by_name] over [self.graphs]. *)
Fixpoint get_graph_by_name (graphs : list Graph) (n : string) : option Graph :=
  match graphs with
  | [] => None
  | graph :: graphs' =>
      if String.eqb (lower (name graph)) (lower n) then Some graph
      else get_graph_by_name graphs' n
  end.

(** The text [search_graphs] looks into. *)
Definition searchable_text (graph : Graph) : string :=
  lower (name graph +:+ " " +:+ description graph +:+ " " +:+ category graph +:+ " "
         +:+ join " " (map node_name (nodes graph))).

Fixpoint search_each (graphs : list Graph) (query_lower : string) (results : list Graph)
    : list Graph :=
  match graphs with
  | [] => results
  | graph :: graphs' =>
      search_each graphs' query_lower
        (if contains query_lower (searchable_text graph) then results ++ [graph]
         else results)
  end.

(** [GraphCatalog.search_graphs] over [self.graphs]. *)
Definition search_graphs (graphs : list Graph) (query : string) : list Graph :=
  search_each graphs (lower query) [].

End Catalog.
Import Catalog.

(** ** Records of the boundary scenario *)

Module Scenario.

Definition plain_node (n t i : string) : NodeRef :=
  {| node_name := n; node_type := t; node_id := i |}.

(** [{name: "Simple Rectangle", node_count: 3}] *)
Definition simple_rectangle : Graph :=
  {| filepath := "/graphs/test0.dyn"; filename := "test0.dyn";
     name := "Simple Rectangle"; description := EmptyString;
     uuid := EmptyString; author := EmptyString; category := "Geometry";
     nodes := [plain_node "Rectangle0" "Type" "n0"; plain_node "Rectangle1" "Type" "n1";
               plain_node "Rectangle2" "Type" "n2"];
     node_count := 3; connector_count := 0; view := None |}.

(** [{name: "Complex Wall Analysis", node_count: 10}] *)
Definition complex_wall_analysis : Graph :=
  {| filepath := "/graphs/test1.dyn"; filename := "test1.dyn";
     name := "Complex Wall Analysis"; description := EmptyString;
     uuid := EmptyString; author := EmptyString; category := "Analysis";
     nodes := map (fun i => plain_node "Node" "Type" ("n" +:+ str_of_nat i)) (seq 0 10);
     node_count := 10; connector_count := 0; view := None |}.

(** [Simple Rectangle] again, as another file by another author, with
    other node identifiers, connectors and a view. *)
Definition copied_rectangle : Graph :=
  {| filepath := "/archive/copy.dyn"; filename := "copy.dyn";
     name := "Simple Rectangle"; description := EmptyString;
     uuid := "3f2a"; author := "somebody"; category := "Geometry";
     nodes := [plain_node "Rectangle0" "Type" "a"; plain_node "Rectangle1" "Type" "b";
               plain_node "Rectangle2" "Type" "c"];
     node_count := 3; connector_count := 7; view := Some (JInt 1, JInt 2, JInt 3) |}.

End Scenario.

(** ** A small disk *)

Module Disk.

Definition file (dir fname stem : string) : Path :=
  {| path_str := dir +:+ "/" +:+ fname; path_name := fname; path_stem := stem |}.

Definition repo : Path :=
  {| path_str := "/graphs"; path_name := "graphs"; path_stem := "graphs" |}.
Definition manuals : Path :=
  {| path_str := "/manuals"; path_name := "manuals"; path_stem := "manuals" |}.

Definition wall_dyn : Path := file "/graphs" "wall.dyn" "wall".
Definition blank_dyn : Path := file "/graphs" "blank.dyn" "blank".
Definition untitled_dyn : Path := file "/graphs" "untitled.dyn" "untitled".
Definition broken_dyn : Path := file "/graphs" "broken.dyn" "broken".
Definition guide_md : Path := file "/manuals" "guide.md" "guide".

Definition is_path (p q : Path) : bool := String.eqb (path_str p) (path_str q).

(** [wall.dyn] is a well-formed graph, [blank.dyn] gives [Name] the empty
    string, [untitled.dyn] has no [Name] key and [broken.dyn] is not JSON. *)
Definition load_json (p : Path) : M value :=
  if is_path p wall_dyn then
    ret (JObj [("Name", JStr "Wall Analyzer"); ("Description", JStr "Analyzes walls");
               ("Category", JStr "Analysis");
               ("Nodes", JList [JObj [("Id", JStr "n0"); ("Name", JStr "Wall.ByCurve");
                                      ("ConcreteType", JStr "Dynamo.Graph.Nodes")]]);
               ("Connectors", JList [])]%string)
  else if is_path p blank_dyn then
    ret (JObj [("Name", JStr EmptyString); ("Nodes", JList [])]%string)
  else if is_path p untitled_dyn then
    ret (JObj [("Nodes", JList [])]%string)
  else if is_path p broken_dyn then raise JSONDecodeError
  else raise OSError.

Definition read_text (p : Path) : M string :=
  if is_path p guide_md then ret "# Guide"%string else raise OSError.

(** The repository holds the four graph files and the manuals directory
    holds one guide. *)
Definition sample : FileSystem :=
  {| fs_exists p :=
       ret (is_path p repo || is_path p manuals || is_path p wall_dyn || is_path p blank_dyn
            || is_path p untitled_dyn || is_path p broken_dyn || is_path p guide_md)%bool;
     fs_rglob p pattern :=
       ret (if (is_path p repo && String.eqb pattern "*.dyn")%bool
            then [wall_dyn; blank_dyn; untitled_dyn; broken_dyn]
            else if (is_path p manuals && String.eqb pattern "*.md")%bool then [guide_md]
            else []);
     fs_load_json := load_json;
     fs_read_text := read_text |}.

(** The same disk after the guide was deleted. *)
Definition guide_deleted : FileSystem :=
  {| fs_exists p :=
       ret (is_path p repo || is_path p manuals || is_path p wall_dyn || is_path p blank_dyn
            || is_path p untitled_dyn || is_path p broken_dyn)%bool;
     fs_rglob p pattern :=
       ret (if (is_path p repo && String.eqb pattern "*.dyn")%bool
            then [wall_dyn; blank_dyn; untitled_dyn; broken_dyn]
            else []);
     fs_load_json := load_json;
     fs_read_text := fun _ => raise OSError |}.

(** The sample disk when the repository path cannot be examined (search
    permission denied on a directory above it): [exists()] raises. *)
Definition repo_unreachable : FileSystem :=
  {| fs_exists p := if is_path p repo then raise OSError else fs_exists sample p;
     fs_rglob := fs_rglob sample;
     fs_load_json := load_json;
     fs_read_text := read_text |}.

(** The sample disk after the repository directory was removed. *)
Definition repo_removed : FileSystem :=
  {| fs_exists p := if is_path p repo then ret false else fs_exists sample p;
     fs_rglob := fs_rglob sample;
     fs_load_json := load_json;
     fs_read_text := read_text |}.

Definition guide_doc : doc_metadata :=
  {| doc_filepath := "/manuals/guide.md"; doc_filename := "guide.md";
     doc_content := "# Guide"; doc_size := 7 |}.

Definition blank_metadata : metadata :=
  {| md_filepath := "/graphs/blank.dyn"; md_filename := "blank.dyn";
     md_name := JStr EmptyString; md_description := JStr EmptyString;
     md_uuid := JStr EmptyString; md_author := JStr EmptyString;
     md_category := JStr "Uncategorized"; md_nodes := []; md_node_count := 0;
     md_connector_count := 0; md_view := None |}.

Definition untitled_metadata : metadata :=
  {| md_filepath := "/graphs/untitled.dyn"; md_filename := "untitled.dyn";
     md_name := JStr "untitled"; md_description := JStr EmptyString;
     md_uuid := JStr EmptyString; md_author := JStr EmptyString;
     md_category := JStr "Uncategorized"; md_nodes := []; md_node_count := 0;
     md_connector_count := 0; md_view := None |}.

(** A record whose fields run together into [WallAreaGeometry]. *)
Definition wall_area : Graph :=
  {| filepath := "/graphs/area.dyn"; filename := "area.dyn"; name := "Wall";
     description := "Area"; uuid := EmptyString; author := EmptyString;
     category := "Geometry"; nodes := []; node_count := 0; connector_count := 0;
     view := None |}.

(** A catalog as a rebuild left it while the repository was there. *)
Definition built : GraphCatalog :=
  {| graph_repo_path := repo; docs_path := Some manuals;
     graphs := [untitled_metadata]; docs := [guide_doc] |}.

End Disk.

(** ** The scoring contract, in the words of the specification *)

Module Spec.

(** Query normalization: the lower-cased query and its token set. *)
Definition raw_query (q : string) : string := lower q.
Definition query_tokens (q : string) : gset string := words (raw_query q).

(** 1. Name word overlap. *)
Definition name_word_overlap (g : Graph) (q : string) : Z :=
  Z.of_nat (size (query_tokens q ∩ words (lower (name g)))) * 10.

(** 2. Name substring bonus. *)
Definition name_substring_bonus (g : Graph) (q : string) : Z :=
  if (contains (raw_query q) (lower (name g)) || contains (lower (name g)) (raw_query q))%bool
  then 20 else 0.

(** 3. Description word overlap, only for a non-empty description. *)
Definition description_word_overlap (g : Graph) (q : string) : Z :=
  if decide (description g = EmptyString) then 0
  else Z.of_nat (size (query_tokens q ∩ words (lower (description g)))) * 5.

(** 4. Category word overlap. *)
Definition category_word_overlap (g : Graph) (q : string) : Z :=
  Z.of_nat (size (query_tokens q ∩ words (lower (category g)))) * 7.

(** 5. Node relevance: a node is matched when some query token occurs in
    its lower-cased name or type. *)
Definition node_matched (q : string) (n : NodeRef) : Prop :=
  set_Exists
    (fun w => contains w (lower (node_name n)) = true ∨ contains w (lower (node_type n)) = true)
    (query_tokens q).

#[export] Instance node_matched_dec q n : Decision (node_matched q n).
Proof. unfold node_matched. apply _. Defined.

Definition matched_nodes (g : Graph) (q : string) : nat :=
  length (filter (node_matched q) (nodes g)).

Definition node_relevance (g : Graph) (q : string) : Z :=
  Z.of_nat (matched_nodes g q) * 3.

(** 6. Complexity bonus. *)
Definition complexity_bonus (g : Graph) (q : string) : Z :=
  if (any_in ["complex"; "advanced"; "detailed"; "comprehensive"]%string (raw_query q)
      && bool_decide (10 < node_count g)%nat)%bool
  then 5 else 0.

(** 7. Simplicity bonus. *)
Definition simplicity_bonus (g : Graph) (q : string) : Z :=
  if (any_in ["simple"; "basic"; "easy"; "quick"; "minimal"]%string (raw_query q)
      && bool_decide (node_count g <= 5)%nat)%bool
  then 5 else 0.

(** The seven signals in order, each with the clause it contributes. *)
Definition signals (g : Graph) (q : string) : list (Z * string) :=
  [ (name_word_overlap g q, "name matches '" +:+ name g +:+ "'");
    (name_substring_bonus g q, "name closely matches query"%string);
    (description_word_overlap g q, "description contains relevant keywords"%string);
    (category_word_overlap g q, "category '" +:+ category g +:+ "' matches");
    (node_relevance g q, "contains " +:+ str_of_nat (matched_nodes g q) +:+ " relevant node(s)");
    (complexity_bonus g q, "complex graph with " +:+ str_of_nat (node_count g) +:+ " nodes");
    (simplicity_bonus g q, "simple graph with " +:+ str_of_nat (node_count g) +:+ " nodes") ].

(** A signal fires when it contributes a positive term. *)
Definition fired_clauses (g : Graph) (q : string) : list string :=
  (filter (fun c => 0 < c.1) (signals g q)).*2.

Definition score (g : Graph) (q : string) : Z :=
  name_word_overlap g q + name_substring_bonus g q + description_word_overlap g q
  + category_word_overlap g q + node_relevance g q + complexity_bonus g q
  + simplicity_bonus g q.

Definition explanation (g : Graph) (q : string) : string :=
  match fired_clauses g q with
  | [] => "No specific match found."
  | clauses => "Recommended because " +:+ join ", " clauses +:+ "."
  end.

(** Two characters that are the same up to the case of a letter. *)
Definition same_letter (c d : ascii) : Prop :=
  c = d ∨ (is_upper c = true ∧ d = lower_char c) ∨ (is_upper d = true ∧ c = lower_char d).

(** Two strings equal when case is ignored: the same length, and the
    same character up to case at every position. *)
Fixpoint equal_ignoring_case (s t : string) : Prop :=
  match s, t with
  | EmptyString, EmptyString => True
  | String c s', String d t' => same_letter c d ∧ equal_ignoring_case s' t'
  | _, _ => False
  end.

(** Non-increasing order of keys. *)
Definition desc {A} (key : A -> Z) (x y : A) : Prop := key y <= key x.

(** The searchable text read as a plain concatenation of the fields. *)
Definition plain_concatenation (g : Graph) : string :=
  name g +:+ description g +:+ category g +:+ join EmptyString (map node_name (nodes g)).

(** The searchable text with single spaces between the fields and
    between the node names. *)
Definition spaced_concatenation (g : Graph) : string :=
  name g +:+ " " +:+ description g +:+ " " +:+ category g +:+ " "
  +:+ join " " (map node_name (nodes g)).

End Spec.

(** ** What the loops of the source leave behind *)

Module Outcome.

(** One signal applied to the running score and reasons: a positive term
    is added and its clause appended. *)
Definition apply_signal (a : acc) (c : Z * string) : acc :=
  if 0 <? c.1 then add a c.1 c.2 else a.

Definition total (cs : list (Z * string)) : Z := foldr (fun c t => c.1 + t) 0 cs.

(** The result triple of one catalog record. *)
Definition scored (q : string) (g : Graph) : Result :=
  (g, (_score_graph g q).1, (_score_graph g q).2).

(** What [parse_dyn_file] yields for a file: its metadata when the [try]
    block completes, nothing when it raises. *)
Definition parsed (fs : FileSystem) (p : Path) : option metadata :=
  match parse_dyn_try fs p with
  | inr m => Some m
  | inl _ => None
  end.

Definition documented (fs : FileSystem) (p : Path) : option doc_metadata :=
  match parse_documentation fs p with
  | inr d => d
  | inl _ => None
  end.

(** The graph records one walk of the repository produces (none when
    the walk raises). *)
Definition walked_graphs (fs : FileSystem) (root : Path) : list metadata :=
  match fs_rglob fs root "*.dyn" with
  | inr dyn_files => omap (parsed fs) dyn_files
  | inl _ => []
  end.

(** The documentation records one walk of the documentation tree produces
    (none when the tree is missing or a check or walk raises). *)
Definition walked_docs (fs : FileSystem) (docs_path : option Path) : list doc_metadata :=
  match docs_path with
  | Some dp =>
      match fs_exists fs dp, fs_rglob fs dp "*.md", fs_rglob fs dp "*.txt" with
      | inr true, inr md_files, inr txt_files =>
          omap (documented fs) (md_files ++ txt_files)
      | _, _, _ => []
      end
  | None => []
  end.

(** Whether the existence check of the repository path answers [True]. *)
Definition root_found (fs : FileSystem) (self : GraphCatalog) : bool :=
  match fs_exists fs (graph_repo_path self) with
  | inr true => true
  | _ => false
  end.

(** The exception, if any, that the existence checks and the walks of the
    documentation tree raise, in the order [build_catalog] makes them. *)
Definition docs_walk_error (fs : FileSystem) (docs_path : option Path) : option exn :=
  match docs_path with
  | Some dp =>
      match fs_exists fs dp with
      | inl e => Some e
      | inr false => None
      | inr true =>
          match fs_rglob fs dp "*.md" with
          | inl e => Some e
          | inr _ =>
              match fs_rglob fs dp "*.txt" with
              | inl e => Some e
              | inr _ => None
              end
          end
      end
  | None => None
  end.

(** The exception, if any, that the existence checks and the walks of one
    rebuild raise, in the order [build_catalog] makes them. *)
Definition walk_error (fs : FileSystem) (self : GraphCatalog) : option exn :=
  match fs_exists fs (graph_repo_path self) with
  | inl e => Some e
  | inr false => None
  | inr true =>
      match fs_rglob fs (graph_repo_path self) "*.dyn" with
      | inl e => Some e
      | inr _ => docs_walk_error fs (docs_path self)
      end
  end.

End Outcome.

(** ** recommender.py: the detailed explanation *)

Module Explain.

Definition newline : string := String (ascii_of_nat 10) EmptyString.

(** [str(z)] for an [int]. *)
Definition str_of_int (z : Z) : string :=
  if z <? 0 then "-" +:+ str_of_nat (Z.to_nat (- z)) else str_of_nat (Z.to_nat z).

(** [f"{score:.1f}"] for a score, which is a whole number. *)
Definition format_1f (score : Z) : string := str_of_int score +:+ ".0".

(** [s or 'N/A'] *)
Definition or_na (s : string) : string :=
  match s with
  | EmptyString => "N/A"
  | _ => s
  end.

(** [RecommendationEngine.explain_recommendation] *)
Definition explain_recommendation (graph : Graph) (user_intent : string) : string :=
  let '(score, explanation) := _score_graph graph user_intent in
  let details :=
    [ "Graph: " +:+ name graph;
      "Score: " +:+ format_1f score;
      "Explanation: " +:+ explanation;
      EmptyString;
      "Graph Details:"%string;
      "  - Description: " +:+ or_na (description graph);
      "  - Category: " +:+ category graph;
      "  - Nodes: " +:+ str_of_nat (node_count graph);
      "  - Connectors: " +:+ str_of_nat (connector_count graph);
      "  - Path: " +:+ filepath graph ] in
  join newline details.

End Explain.
Import Explain.

(** ** executor.py *)

Module Executor.

(** What [subprocess.run(cmd, capture_output=True, text=True, timeout=300)]
    does: it returns a completed process, or raises [TimeoutExpired], or
    raises another exception whose text is [str(e)]. *)
Inductive run_outcome : Type :=
| Completed (returncode : Z) (stdout stderr : string)
| TimeoutExpired
| Raised (text : string).

(** The machine the executor runs on: [Path(s).exists()], [str(Path(s))]
    and [subprocess.run]. *)
Record Runtime := {
  path_exists : string -> bool;
  path_text : string -> string;
  run : list string -> run_outcome
}.

Record DynamoExecutor := { dynamo_cli_path : string; allow_execution : bool }.

(** The [result] dictionary. *)
Record ExecResult := {
  success : bool;
  executed : bool;
  message : string;
  output : string;
  error : string
}.

Definition initial_result : ExecResult :=
  {| success := false; executed := false; message := EmptyString;
     output := EmptyString; error := EmptyString |}.

Definition with_message (result : ExecResult) (msg : string) : ExecResult :=
  {| success := success result; executed := executed result; message := msg;
     output := output result; error := error result |}.

(** [DynamoExecutor.can_execute] *)
Definition can_execute (w : Runtime) (self : DynamoExecutor) : bool :=
  if negb (allow_execution self) then false
  else
    match dynamo_cli_path self with
    | EmptyString => false
    | _ => if negb (path_exists w (dynamo_cli_path self)) then false else true
    end.

(** [DynamoExecutor.execute_graph]: the returned dictionary, and the
    commands handed to [subprocess.run] during the call. *)
Definition execute_graph (w : Runtime) (self : DynamoExecutor) (graph : Graph)
    (run_flag : bool) : ExecResult * list (list string) :=
  let result := initial_result in
  if negb (allow_execution self) then
    (with_message result
       "Execution is disabled. Set ALLOW_EXECUTION=true in .env to enable.", [])
  else if negb run_flag then
    (with_message result
       "Execution requires explicit consent. Use --run flag to execute.", [])
  else if negb (can_execute w self) then
    (with_message result "Execution not configured. Check DYNAMO_CLI_PATH in .env", [])
  else
    let graph_path := path_text w (filepath graph) in
    if negb (path_exists w (filepath graph)) then
      (with_message result ("Graph file not found: " +:+ graph_path), [])
    else
      let cmd := [dynamo_cli_path self; graph_path] in
      match run w cmd with
      | Completed returncode stdout stderr =>
          let ok := returncode =? 0 in
          ({| success := ok; executed := true;
              message :=
                if ok then "Graph '" +:+ name graph +:+ "' executed successfully"
                else "Graph '" +:+ name graph +:+ "' execution failed with code "
                     +:+ str_of_int returncode;
              output := stdout; error := stderr |}, [cmd])
      | TimeoutExpired =>
          (with_message result ("Graph '" +:+ name graph +:+ "' execution timed out"), [cmd])
      | Raised e =>
          (with_message result ("Graph '" +:+ name graph +:+ "' execution error: " +:+ e),
           [cmd])
      end.

(** The exit code of a run that completed. *)
Definition exit_code (o : run_outcome) : option Z :=
  match o with
  | Completed returncode _ _ => Some returncode
  | _ => None
  end.

(** The five conditions under which [execute_graph] reaches
    [subprocess.run]. *)
Definition gates (w : Runtime) (self : DynamoExecutor) (graph : Graph) (run_flag : bool)
    : bool :=
  (allow_execution self && run_flag
   && negb (String.eqb (dynamo_cli_path self) EmptyString)
   && path_exists w (dynamo_cli_path self)
   && path_exists w (filepath graph))%bool.

End Executor.

(** ** cli.py: the executor the commands build from the environment *)

Module Cli.

(** [os.getenv(key, dflt)] *)
Definition getenv (env : string -> option string) (key dflt : string) : string :=
  default dflt (env key).

(** [# Check execution configuration] of [recommend] and [execute]. *)
Definition executor_from_env (env : string -> option string) : Executor.DynamoExecutor :=
  let allow_execution :=
    String.eqb (lower (getenv env "ALLOW_EXECUTION" "false")) "true" in
  let dynamo_cli_path := getenv env "DYNAMO_CLI_PATH" EmptyString in
  {| Executor.dynamo_cli_path := dynamo_cli_path;
     Executor.allow_execution := allow_execution |}.

End Cli.

(** ** A machine to run on *)

Module Machine.

Definition dynamo : string := "/opt/dynamo/DynamoCLI".

(** The Dynamo executable and the two scenario files exist; running
    Dynamo on [test0.dyn] succeeds, on anything else it exits with 2. *)
Definition sample : Executor.Runtime :=
  {| Executor.path_exists p :=
       (String.eqb p dynamo || String.eqb p "/graphs/test0.dyn"
        || String.eqb p "/graphs/test1.dyn")%bool;
     Executor.path_text p := p;
     Executor.run cmd :=
       match cmd with
       | [_; target] =>
           if String.eqb target "/graphs/test0.dyn"
           then Executor.Completed 0 "done" EmptyString
           else Executor.Completed 2 EmptyString "failed"
       | _ => Executor.Raised "bad command"
       end |}.

Definition enabled : Executor.DynamoExecutor :=
  {| Executor.dynamo_cli_path := dynamo; Executor.allow_execution := true |}.

Definition env_enabled (key : string) : option string :=
  if String.eqb key "ALLOW_EXECUTION" then Some "True"%string
  else if String.eqb key "DYNAMO_CLI_PATH" then Some dynamo
  else None.

End Machine.

(** ** Facts about the text primitives *)

Section TextFacts.

Lemma prefix_empty (s : string) : String.prefix EmptyString s = true.
Proof. by destruct s. Qed.

Lemma contains_empty (s : string) : contains EmptyString s = true.
Proof. destruct s; reflexivity. Qed.

Lemma lower_empty_iff (s : string) : lower s = EmptyString ↔ s = EmptyString.
Proof. destruct s; simpl; split; (done || discriminate). Qed.

Lemma words_empty : words EmptyString = ∅.
Proof. reflexivity. Qed.

Lemma prefix_spec (n h : string) : String.prefix n h = true ↔ ∃ b, h = n +:+ b.
Proof.
  revert h. induction n as [|c n IH]; intros h.
  - rewrite prefix_empty. split; [by exists h|done].
  - destruct h as [|d h]; simpl; [split; [done|intros [b ?]; discriminate]|].
    destruct (Ascii.ascii_dec c d) as [->|Hne].
    + rewrite IH. split; intros [b E]; exists b; [by rewrite E|by injection E].
    + split; [done|]. intros [b E]. injection E as E _. congruence.
Qed.

(** [contains] is Python's [in]: the needle occurs somewhere in the text. *)
Lemma contains_spec (n h : string) :
  contains n h = true ↔ ∃ a b, h = a +:+ n +:+ b.
Proof.
  induction h as [|d h IH]; cbn [contains]; rewrite orb_true_iff, prefix_spec.
  - split.
    + intros [[b E]|?]; [|done]. by exists EmptyString, b.
    + intros ([|c a] & b & E); [left; by exists b|discriminate].
  - rewrite IH. split.
    + intros [[b E]|(a & b & ->)]; [by exists EmptyString, b|by exists (String d a), b].
    + intros ([|c a] & b & E); [left; by exists b|].
      right. injection E as -> ->. by exists a, b.
Qed.

Lemma is_upper_bounds (c : ascii) :
  is_upper c = true ↔ (65 <= nat_of_ascii c <= 90)%nat.
Proof.
  unfold is_upper. rewrite andb_true_iff, !Nat.leb_le. done.
Qed.

Lemma lower_char_not_upper (c : ascii) : is_upper (lower_char c) = false.
Proof.
  unfold lower_char. destruct (is_upper c) eqn:E; [|done].
  apply is_upper_bounds in E. apply not_true_iff_false. rewrite is_upper_bounds.
  rewrite nat_ascii_embedding by lia. lia.
Qed.

Lemma lower_char_idemp (c : ascii) : lower_char (lower_char c) = lower_char c.
Proof. unfold lower_char at 1. by rewrite lower_char_not_upper. Qed.

Lemma lower_char_same_letter (c d : ascii) :
  lower_char c = lower_char d ↔ Spec.same_letter c d.
Proof.
  unfold Spec.same_letter. split.
  - intros E. destruct (is_upper c) eqn:Hc, (is_upper d) eqn:Hd.
    + left. unfold lower_char in E. rewrite Hc, Hd in E.
      apply is_upper_bounds in Hc, Hd.
      apply (f_equal nat_of_ascii) in E. rewrite !nat_ascii_embedding in E by lia.
      rewrite <- (ascii_nat_embedding c), <- (ascii_nat_embedding d). f_equal. lia.
    + right; left. split; [done|]. rewrite E. unfold lower_char. by rewrite Hd.
    + right; right. split; [done|]. rewrite <- E. unfold lower_char. by rewrite Hc.
    + left. unfold lower_char in E. by rewrite Hc, Hd in E.
  - intros [->|[[_ ->]|[_ ->]]]; [done| |]; by rewrite lower_char_idemp.
Qed.

(** Equality after [lower()] is equality up to case. *)
Lemma lower_eq_ignoring_case (s t : string) :
  lower s = lower t ↔ Spec.equal_ignoring_case s t.
Proof.
  revert t. induction s as [|c s IH]; intros [|d t]; simpl; try done.
  rewrite <- IH, <- lower_char_same_letter. split; [by intros [= -> ->]|by intros [-> ->]].
Qed.

Example lower_sample : lower "Simple Rectangle_2!" = "simple rectangle_2!"%string.
Proof. reflexivity. Qed.

Example findall_words_sample :
  findall_words "complex wall-analysis,  v_2!" = ["complex"; "wall"; "analysis"; "v_2"]%string.
Proof. reflexivity. Qed.

Example join_sample : join ", " ["a"; "b"; "c"]%string = "a, b, c"%string.
Proof. reflexivity. Qed.

Example str_of_nat_sample : str_of_nat 10 = "10"%string ∧ str_of_nat 0 = "0"%string.
Proof. split; reflexivity. Qed.

Example slice_to_sample :
  slice_to [1; 2; 3] 2 = [1; 2] ∧ slice_to [1; 2; 3] 5 = [1; 2; 3]
  ∧ slice_to [1; 2; 3] (-1) = [1; 2] ∧ slice_to [1; 2; 3] (-7) = [].
Proof. repeat split; reflexivity. Qed.

End TextFacts.

(** ** The scorer *)

Section ScorerFacts.

Implicit Types (g : Graph) (q : string) (a : acc) (ws : list string).

Lemma scan_words_existsb ws nn nt n :
  scan_words ws nn nt n
  = if existsb (fun w => contains w nn || contains w nt)%bool ws then S n else n.
Proof.
  induction ws as [|w ws IH]; simpl; [done|].
  destruct (contains w nn || contains w nt)%bool; simpl; [done|apply IH].
Qed.

Lemma existsb_tokens_matched q (n : NodeRef) ws :
  ws ≡ₚ elements (Spec.query_tokens q) →
  existsb (fun w => contains w (lower (node_name n)) || contains w (lower (node_type n)))%bool ws
  = bool_decide (Spec.node_matched q n).
Proof.
  intros Hws. apply eq_true_iff_eq. rewrite existsb_exists, bool_decide_eq_true.
  unfold Spec.node_matched, set_Exists. split.
  - intros (w & Hin & Hw). exists w. split.
    + apply elem_of_elements. rewrite <- Hws. by apply list_elem_of_In.
    + by apply orb_prop in Hw.
  - intros (w & Hin & Hw). exists w. split.
    + apply list_elem_of_In. rewrite Hws. by apply elem_of_elements.
    + destruct Hw as [->| ->]; [done|apply orb_true_r].
Qed.

Lemma scan_nodes_matched q ws (ns : list NodeRef) n :
  ws ≡ₚ elements (Spec.query_tokens q) →
  scan_nodes ws ns n = (n + length (filter (Spec.node_matched q) ns))%nat.
Proof.
  intros Hws. revert n. induction ns as [|node ns IH]; intros n; simpl.
  - lia.
  - rewrite IH, scan_words_existsb, (existsb_tokens_matched q node ws Hws).
    rewrite filter_cons. case_bool_decide; destruct (decide _); simpl; try done; lia.
Qed.

Lemma apply_signal_zero a s : Outcome.apply_signal a (0, s) = a.
Proof. reflexivity. Qed.

Lemma apply_signal_count a (n : nat) (w : Z) s :
  0 < w →
  Outcome.apply_signal a (Z.of_nat n * w, s)
  = if (0 <? n)%nat then add a (Z.of_nat n * w) s else a.
Proof.
  intros Hw. unfold Outcome.apply_signal; simpl. destruct n as [|n]; [done|].
  replace (0 <? Z.of_nat (S n) * w) with true; [done|].
  symmetry. apply Z.ltb_lt. lia.
Qed.

Lemma step_name g q a :
  score_name g (Spec.query_tokens q) a
  = Outcome.apply_signal a (Spec.name_word_overlap g q, "name matches '" +:+ name g +:+ "'").
Proof. unfold score_name, Spec.name_word_overlap. by rewrite apply_signal_count. Qed.

Lemma step_exact_name g q a :
  score_exact_name g (Spec.raw_query q) a
  = Outcome.apply_signal a (Spec.name_substring_bonus g q, "name closely matches query"%string).
Proof.
  unfold score_exact_name, Spec.name_substring_bonus.
  by destruct (_ || _)%bool.
Qed.

Lemma step_description g q a :
  score_description g (Spec.query_tokens q) a
  = Outcome.apply_signal a
      (Spec.description_word_overlap g q, "description contains relevant keywords"%string).
Proof.
  unfold score_description, Spec.description_word_overlap.
  destruct (decide (description g = EmptyString)) as [->|Hne]; [done|].
  rewrite apply_signal_count by done.
  destruct (lower (description g)) eqn:E; [|done].
  exfalso. by apply Hne, lower_empty_iff.
Qed.

Lemma step_category g q a :
  score_category g (Spec.query_tokens q) a
  = Outcome.apply_signal a
      (Spec.category_word_overlap g q, "category '" +:+ category g +:+ "' matches").
Proof. unfold score_category, Spec.category_word_overlap. by rewrite apply_signal_count. Qed.

Lemma step_nodes g q ws a :
  ws ≡ₚ elements (Spec.query_tokens q) →
  score_nodes g ws a
  = Outcome.apply_signal a
      (Spec.node_relevance g q,
       "contains " +:+ str_of_nat (Spec.matched_nodes g q) +:+ " relevant node(s)").
Proof.
  intros Hws. unfold score_nodes, Spec.node_relevance.
  rewrite (scan_nodes_matched q ws _ _ Hws); simpl.
  by rewrite apply_signal_count.
Qed.

Lemma step_complexity g q a :
  score_complexity g (Spec.raw_query q) a
  = Outcome.apply_signal a
      (Spec.complexity_bonus g q,
       "complex graph with " +:+ str_of_nat (node_count g) +:+ " nodes").
Proof.
  unfold score_complexity, Spec.complexity_bonus, complexity_keywords.
  destruct (any_in _ _); simpl; [|done].
  case_bool_decide as H.
  - by apply Nat.ltb_lt in H as ->.
  - by apply Nat.ltb_nlt in H as ->.
Qed.

Lemma step_simplicity g q a :
  score_simplicity g (Spec.raw_query q) a
  = Outcome.apply_signal a
      (Spec.simplicity_bonus g q,
       "simple graph with " +:+ str_of_nat (node_count g) +:+ " nodes").
Proof.
  unfold score_simplicity, Spec.simplicity_bonus, simplicity_keywords.
  destruct (any_in _ _); simpl; [|done].
  case_bool_decide as H.
  - by apply Nat.leb_le in H as ->.
  - by apply Nat.leb_nle in H as ->.
Qed.

(** Applying signals one after the other adds up the terms and collects
    the clauses of those that fire. *)
Lemma apply_signals a (cs : list (Z * string)) :
  Forall (fun c => 0 <= c.1) cs →
  foldl Outcome.apply_signal a cs
  = {| score := score a + Outcome.total cs;
       reasons := reasons a ++ (filter (fun c => 0 < c.1) cs).*2 |}.
Proof.
  intros Hcs. revert a. induction Hcs as [|c cs Hc _ IH]; intros a; simpl.
  - destruct a as [sc rs]; unfold Outcome.total; simpl. f_equal; [lia|by rewrite app_nil_r].
  - rewrite IH. unfold Outcome.apply_signal, Outcome.total. rewrite filter_cons.
    destruct (0 <? c.1) eqn:E.
    + apply Z.ltb_lt in E. rewrite decide_True by done. simpl.
      f_equal; [lia|by rewrite <- app_assoc].
    + apply Z.ltb_ge in E. rewrite decide_False by lia. simpl.
      f_equal. lia.
Qed.

Lemma signals_nonneg g q : Forall (fun c => 0 <= c.1) (Spec.signals g q).
Proof.
  unfold Spec.signals, Spec.name_word_overlap, Spec.name_substring_bonus,
    Spec.description_word_overlap, Spec.category_word_overlap, Spec.node_relevance,
    Spec.complexity_bonus, Spec.simplicity_bonus.
  repeat (apply Forall_cons; split); try apply Forall_nil; simpl;
    repeat case_match; lia.
Qed.

Lemma score_graph_in_signals g q ws :
  ws ≡ₚ elements (Spec.query_tokens q) →
  _score_graph_in ws g q = (Spec.score g q, Spec.explanation g q).
Proof.
  intros Hws. unfold _score_graph_in.
  change (words (lower q)) with (Spec.query_tokens q).
  change (lower q) with (Spec.raw_query q).
  rewrite step_name, step_exact_name, step_description, step_category,
    (step_nodes g q ws _ Hws), step_complexity, step_simplicity.
  pose proof (apply_signals {| score := 0; reasons := [] |} (Spec.signals g q)
                (signals_nonneg g q)) as H.
  unfold Spec.signals in H at 1. simpl in H. rewrite H. simpl.
  unfold Spec.score, Spec.explanation, Spec.fired_clauses, Outcome.total, Spec.signals, explanation_of.
  simpl. f_equal; [lia|].
  by destruct ((filter _ _).*2).
Qed.

End ScorerFacts.

(** ** The stable descending sort *)

Section SortFacts.

Context {A : Type} (key : A -> Z).
Implicit Types (x y : A) (l : list A) (s : Z).

Lemma insert_desc_perm x l : insert_desc key x l ≡ₚ x :: l.
Proof.
  induction l as [|y l IH]; simpl; [done|].
  destruct (key x <? key y); [|done].
  rewrite IH. apply perm_swap.
Qed.

Lemma sort_desc_perm l : sort_desc key l ≡ₚ l.
Proof.
  induction l as [|x l IH]; simpl; [done|].
  by rewrite insert_desc_perm, IH.
Qed.

Lemma insert_desc_sorted x l :
  StronglySorted (Spec.desc key) l → StronglySorted (Spec.desc key) (insert_desc key x l).
Proof.
  induction 1 as [|y l Hl IH Hy]; simpl.
  - repeat constructor.
  - destruct (key x <? key y) eqn:E.
    + apply Z.ltb_lt in E. constructor; [done|].
      rewrite insert_desc_perm. constructor; [unfold Spec.desc; lia|done].
    + apply Z.ltb_ge in E. constructor; [by constructor|].
      constructor; [done|].
      eapply Forall_impl; [exact Hy|]. unfold Spec.desc. intros z Hz; simpl in *; lia.
Qed.

Lemma sort_desc_sorted l : StronglySorted (Spec.desc key) (sort_desc key l).
Proof.
  induction l as [|x l IH]; simpl; [constructor|by apply insert_desc_sorted].
Qed.

(** Insertion moves [x] only past strictly greater keys, so the
    records of any one key keep their order. *)
Lemma insert_desc_stable x l s :
  filter (fun y => key y = s) (insert_desc key x l) = filter (fun y => key y = s) (x :: l).
Proof.
  induction l as [|y l IH]; simpl; [done|].
  destruct (key x <? key y) eqn:E; [|done].
  apply Z.ltb_lt in E.
  rewrite (filter_cons _ y), IH, !(filter_cons _ x), (filter_cons _ y).
  repeat destruct (decide _); try done; lia.
Qed.

Lemma sort_desc_stable l s :
  filter (fun y => key y = s) (sort_desc key l) = filter (fun y => key y = s) l.
Proof.
  induction l as [|x l IH]; simpl; [done|].
  by rewrite insert_desc_stable, !filter_cons, IH.
Qed.

Lemma sort_desc_sorted_id l : StronglySorted (Spec.desc key) l → sort_desc key l = l.
Proof.
  induction 1 as [|x l Hl IH Hx]; simpl; [done|].
  rewrite IH. destruct Hx as [|y l Hy _]; simpl; [done|].
  unfold Spec.desc in Hy. by rewrite (proj2 (Z.ltb_ge _ _) Hy).
Qed.

(** Two descending lists with the same records, in the same order, for
    every key are the same list: the outcome of a stable sort does not
    depend on the sorting algorithm. *)
Lemma stable_desc_unique l1 l2 :
  StronglySorted (Spec.desc key) l1 → StronglySorted (Spec.desc key) l2 →
  (∀ s, filter (fun y => key y = s) l1 = filter (fun y => key y = s) l2) →
  l1 = l2.
Proof.
  intros H1. revert l2. induction H1 as [|x l1 Hl1 IH Hx]; intros l2 H2 Hf.
  - destruct l2 as [|y l2]; [done|].
    specialize (Hf (key y)). rewrite filter_cons, decide_True in Hf by done.
    discriminate.
  - destruct H2 as [|y l2 Hl2 Hy].
    { specialize (Hf (key x)). rewrite filter_cons, decide_True in Hf by done.
      discriminate. }
    assert (key x = key y) as Hk.
    { assert (x ∈ y :: l2) as Hxin.
      { pose proof (Hf (key x)) as E. rewrite (filter_cons _ x), decide_True in E by done.
        assert (x ∈ filter (fun z => key z = key x) (y :: l2)) as Hin
          by (rewrite <- E; left).
        by apply list_elem_of_filter in Hin as [_ ?]. }
      assert (y ∈ x :: l1) as Hyin.
      { pose proof (Hf (key y)) as E. rewrite (filter_cons _ y), decide_True in E by done.
        assert (y ∈ filter (fun z => key z = key y) (x :: l1)) as Hin
          by (rewrite E; left).
        by apply list_elem_of_filter in Hin as [_ ?]. }
      rewrite Forall_forall in Hx, Hy. unfold Spec.desc in Hx, Hy.
      apply elem_of_cons in Hxin as [->|Hxin]; [done|].
      apply elem_of_cons in Hyin as [->|Hyin]; [done|].
      specialize (Hx _ Hyin). specialize (Hy _ Hxin). lia. }
    pose proof (Hf (key x)) as E.
    rewrite (filter_cons _ x), (filter_cons _ y), decide_True, decide_True in E by done.
    injection E as -> E. f_equal. apply IH; [done|].
    intros s. specialize (Hf s). rewrite !filter_cons in Hf.
    destruct (decide (key y = s)); [by injection Hf|done].
Qed.

(** Whatever stable descending sort the runtime uses, it returns what
    [sort_desc] returns. *)
Lemma sort_desc_characterised l l' :
  StronglySorted (Spec.desc key) l' →
  (∀ s, filter (fun y => key y = s) l' = filter (fun y => key y = s) l) →
  l' = sort_desc key l.
Proof.
  intros Hsorted Hstable. apply stable_desc_unique; [done|apply sort_desc_sorted|].
  intros s. by rewrite sort_desc_stable.
Qed.

End SortFacts.

(** ** The recommender *)

Section RecommenderFacts.

Implicit Types (g : Graph) (q : string) (gs : list Graph) (k : Z).

Lemma slice_to_nonneg {A} (l : list A) k : 0 <= k → slice_to l k = take (Z.to_nat k) l.
Proof. intros Hk. unfold slice_to. by rewrite (proj2 (Z.leb_le _ _) Hk). Qed.

Lemma score_each_cons g gs q (scored_graphs : list Result) :
  score_each (g :: gs) q scored_graphs
  = score_each gs q
      (if 0 <? (_score_graph g q).1 then scored_graphs ++ [Outcome.scored q g]
       else scored_graphs).
Proof. unfold Outcome.scored. cbn [score_each]. by destruct (_score_graph g q). Qed.

Lemma score_each_filter gs q (scored_graphs : list Result) :
  score_each gs q scored_graphs
  = scored_graphs ++ filter (fun r => 0 < result_score r) (map (Outcome.scored q) gs).
Proof.
  revert scored_graphs. induction gs as [|g gs IH]; intros scored_graphs.
  - simpl. by rewrite app_nil_r.
  - rewrite score_each_cons, IH. cbn [map]. rewrite filter_cons.
    change (result_score (Outcome.scored q g)) with (_score_graph g q).1.
    destruct (0 <? (_score_graph g q).1) eqn:Hs.
    + apply Z.ltb_lt in Hs. rewrite decide_True by done. by rewrite <- app_assoc.
    + apply Z.ltb_ge in Hs. rewrite decide_False by lia. done.
Qed.

Lemma recommend_unfold gs q k :
  0 <= k →
  recommend gs q k
  = take (Z.to_nat k)
      (sort_desc result_score
         (filter (fun r => 0 < result_score r) (map (Outcome.scored q) gs))).
Proof.
  intros Hk. unfold recommend. destruct gs as [|g gs]; [by destruct (Z.to_nat k)|].
  by rewrite slice_to_nonneg, score_each_filter.
Qed.

Lemma filter_take_prefix {A} (P : A → Prop) `{∀ x, Decision (P x)} (n : nat) (l : list A) :
  filter P (take n l) `prefix_of` filter P l.
Proof.
  exists (filter P (drop n l)). by rewrite <- filter_app, take_drop.
Qed.

Lemma filter_none {A} (P : A → Prop) `{∀ x, Decision (P x)} (l : list A) :
  Forall (fun x => ¬ P x) l → filter P l = [].
Proof.
  induction 1 as [|x l Hx _ IH]; [done|].
  by rewrite filter_cons, decide_False.
Qed.

Lemma filter_all {A} (P : A → Prop) `{∀ x, Decision (P x)} (l : list A) :
  Forall P l → filter P l = l.
Proof.
  induction 1 as [|x l Hx _ IH]; [done|].
  by rewrite filter_cons, decide_True, IH.
Qed.

Lemma total_zero (cs : list (Z * string)) :
  Forall (fun c => 0 <= c.1) cs → filter (fun c => 0 < c.1) cs = [] → Outcome.total cs = 0.
Proof.
  induction 1 as [|c cs Hc _ IH]; simpl; [done|].
  rewrite filter_cons. destruct (decide (0 < c.1)); [done|].
  intros E. rewrite (IH E). lia.
Qed.

Lemma score_zero_without_clause g q : Spec.fired_clauses g q = [] → Spec.score g q = 0.
Proof.
  unfold Spec.fired_clauses. intros E. apply fmap_nil_inv in E.
  pose proof (total_zero _ (signals_nonneg g q) E) as T.
  unfold Outcome.total, Spec.signals in T. simpl in T. unfold Spec.score. lia.
Qed.

Lemma score_graph_signals g q : _score_graph g q = (Spec.score g q, Spec.explanation g q).
Proof. by apply score_graph_in_signals. Qed.

Lemma score_graph_empty_query g :
  _score_graph g EmptyString = (20, "Recommended because name closely matches query."%string).
Proof.
  unfold _score_graph, _score_graph_in. simpl lower. rewrite words_empty.
  unfold score_name, score_exact_name, score_description, score_category, score_nodes.
  rewrite !intersection_empty_l_L, size_empty, elements_empty, contains_empty. simpl.
  assert (∀ ns n, scan_nodes [] ns n = n) as ->
    by (intros ns; induction ns; intros; simpl; auto).
  simpl. by destruct (lower (description g)).
Qed.

End RecommenderFacts.

(** C1. For every record and query the scorer returns the sum of the seven
    signals of the specification, taken in order with the weights 10, 20,
    5, 7, 3, 5 and 5, and the explanation built from the clauses of the
    signals that fire, joined by a comma and a space between
    [Recommended because] and the final full stop; when no signal fires the
    score is 0 and the explanation is [No specific match found.]. *)
Theorem score_graph_sums_the_seven_signals (g : Graph) (q : string) :
  _score_graph g q = (Spec.score g q, Spec.explanation g q)
  ∧ match Spec.fired_clauses g q with
    | [] => _score_graph g q = (0, "No specific match found."%string)
    | clauses =>
        (_score_graph g q).2 = "Recommended because " +:+ join ", " clauses +:+ "."
    end.
Proof.
  rewrite score_graph_signals. split; [done|].
  unfold Spec.explanation. destruct (Spec.fired_clauses g q) eqn:E; [|done].
  by rewrite (score_zero_without_clause g q E).
Qed.

(** C6. The score of every record for every query is at least 0, and the
    outcome (score and explanation) is the same for every order in which the
    runtime may enumerate the set of query tokens: two invocations on equal
    arguments agree. The scorer reads its two arguments only. *)
Theorem score_graph_nonneg_and_deterministic (g : Graph) (q : string) (ws1 ws2 : list string) :
  ws1 ≡ₚ elements (words (lower q)) →
  ws2 ≡ₚ elements (words (lower q)) →
  _score_graph_in ws1 g q = _score_graph_in ws2 g q
  ∧ _score_graph_in ws1 g q = _score_graph g q
  ∧ 0 <= (_score_graph g q).1.
Proof.
  intros H1 H2.
  rewrite (score_graph_in_signals g q ws1 H1), (score_graph_in_signals g q ws2 H2),
    score_graph_signals.
  repeat split. simpl.
  pose proof (signals_nonneg g q) as Hn. unfold Spec.signals in Hn.
  repeat (apply Forall_cons in Hn as [? Hn]). simpl in *. unfold Spec.score. lia.
Qed.

Lemma score_graph_nonneg_and_deterministic_witness :
  _score_graph_in ["quick"; "simple"]%string Scenario.simple_rectangle "Simple, quick"
  = _score_graph_in ["simple"; "quick"]%string Scenario.simple_rectangle "Simple, quick"
  ∧ _score_graph_in ["quick"; "simple"]%string Scenario.simple_rectangle "Simple, quick"
    = _score_graph Scenario.simple_rectangle "Simple, quick"
  ∧ 0 <= (_score_graph Scenario.simple_rectangle "Simple, quick").1.
Proof.
  apply (score_graph_nonneg_and_deterministic Scenario.simple_rectangle "Simple, quick").
  - vm_compute. apply perm_swap.
  - vm_compute. reflexivity.
Defined.

(** C2. For a positive bound [k], [recommend] returns at most [k] results,
    each the triple of a catalog record with a score above 0, in
    non-increasing order of score, and the results of any one score are the
    first ones of that score in catalog order (the sort is stable); an empty
    catalog, or one where no record scores above 0, gives the empty list. *)
Theorem recommend_ranks_top_results (gs : list Graph) (q : string) (k : Z) :
  0 < k →
  (length (recommend gs q k) <= Z.to_nat k)%nat
  ∧ Forall (fun r => 0 < result_score r ∧ r ∈ map (Outcome.scored q) gs) (recommend gs q k)
  ∧ StronglySorted (Spec.desc result_score) (recommend gs q k)
  ∧ (∀ s, filter (fun r => result_score r = s) (recommend gs q k)
          `prefix_of` filter (fun r => result_score r = s) (map (Outcome.scored q) gs))
  ∧ recommend [] q k = []
  ∧ (Forall (fun g => (_score_graph g q).1 <= 0) gs → recommend gs q k = []).
Proof.
  intros Hk. rewrite !recommend_unfold by lia.
  set (pos := filter (fun r => 0 < result_score r) (map (Outcome.scored q) gs)).
  set (sorted := sort_desc result_score pos).
  split; [|split; [|split; [|split; [|split]]]].
  - rewrite length_take. lia.
  - apply Forall_forall. intros r Hr.
    apply (subseteq_take (Z.to_nat k) sorted) in Hr.
    unfold sorted in Hr. rewrite sort_desc_perm in Hr.
    by apply list_elem_of_filter in Hr.
  - apply (StronglySorted_app_1_l _ _ (drop (Z.to_nat k) sorted)).
    rewrite take_drop. apply sort_desc_sorted.
  - intros s. etrans; [apply filter_take_prefix|].
    unfold sorted. rewrite sort_desc_stable. unfold pos.
    destruct (decide (0 < s)) as [Hs|Hs].
    + rewrite list_filter_filter_l; [done|]. intros r; simpl; lia.
    + rewrite filter_none; [apply prefix_nil|].
      apply Forall_forall. intros r Hr. apply list_elem_of_filter in Hr. lia.
  - by destruct (Z.to_nat k).
  - intros Hall. unfold sorted, pos.
    rewrite filter_none; [by destruct (Z.to_nat k)|].
    apply Forall_forall. intros r Hr. apply list_elem_of_fmap in Hr as (g & -> & Hg).
    rewrite Forall_forall in Hall. specialize (Hall g Hg).
    change (result_score (Outcome.scored q g)) with (_score_graph g q).1. lia.
Qed.

Lemma recommend_ranks_top_results_witness :
  let gs := [Scenario.complex_wall_analysis; Scenario.simple_rectangle] in
  let q := "rectangle wall"%string in
  (length (recommend gs q 1) <= 1)%nat
  ∧ Forall (fun r => 0 < result_score r ∧ r ∈ map (Outcome.scored q) gs) (recommend gs q 1)
  ∧ StronglySorted (Spec.desc result_score) (recommend gs q 1)
  ∧ (∀ s, filter (fun r => result_score r = s) (recommend gs q 1)
          `prefix_of` filter (fun r => result_score r = s) (map (Outcome.scored q) gs))
  ∧ recommend [] q 1 = []
  ∧ (Forall (fun g => (_score_graph g q).1 <= 0) gs → recommend gs q 1 = []).
Proof.
  apply (recommend_ranks_top_results
           [Scenario.complex_wall_analysis; Scenario.simple_rectangle] "rectangle wall" 1).
  lia.
Defined.

(** C9. The complexity bonus needs more than 10 nodes: on a record with
    exactly 10 nodes that block leaves the score and the reasons as they are,
    whatever the query. With the catalog holding [Simple Rectangle] (3 nodes)
    and [Complex Wall Analysis] (10 nodes), in either order,
    [recommend("simple", 5)] puts [Simple Rectangle] first, with score 35,
    and [Complex Wall Analysis], scoring 0, is not returned at all; the
    query [complex] gives the 10-node record 30 points and no complexity
    clause. *)
Theorem complexity_bonus_boundary (g : Graph) (q : string) (a : acc) :
  node_count g = 10%nat →
  score_complexity g (lower q) a = a
  ∧ recommend [Scenario.simple_rectangle; Scenario.complex_wall_analysis] "simple" 5
    = [(Scenario.simple_rectangle, 35,
        "Recommended because name matches 'Simple Rectangle', name closely matches query, simple graph with 3 nodes."%string)]
  ∧ recommend [Scenario.complex_wall_analysis; Scenario.simple_rectangle] "simple" 5
    = [(Scenario.simple_rectangle, 35,
        "Recommended because name matches 'Simple Rectangle', name closely matches query, simple graph with 3 nodes."%string)]
  ∧ _score_graph Scenario.complex_wall_analysis "simple" = (0, "No specific match found."%string)
  ∧ _score_graph Scenario.complex_wall_analysis "complex"
    = (30, "Recommended because name matches 'Complex Wall Analysis', name closely matches query."%string).
Proof.
  intros Hn. split.
  - unfold score_complexity. rewrite Hn.
    by destruct (any_in complexity_keywords (lower q)).
  - repeat split; vm_compute; reflexivity.
Qed.

Lemma complexity_bonus_boundary_witness :
  score_complexity Scenario.complex_wall_analysis (lower "A Complex one")
    {| score := 30; reasons := [] |}
  = {| score := 30; reasons := [] |}
  ∧ recommend [Scenario.simple_rectangle; Scenario.complex_wall_analysis] "simple" 5
    = [(Scenario.simple_rectangle, 35,
        "Recommended because name matches 'Simple Rectangle', name closely matches query, simple graph with 3 nodes."%string)]
  ∧ recommend [Scenario.complex_wall_analysis; Scenario.simple_rectangle] "simple" 5
    = [(Scenario.simple_rectangle, 35,
        "Recommended because name matches 'Simple Rectangle', name closely matches query, simple graph with 3 nodes."%string)]
  ∧ _score_graph Scenario.complex_wall_analysis "simple" = (0, "No specific match found."%string)
  ∧ _score_graph Scenario.complex_wall_analysis "complex"
    = (30, "Recommended because name matches 'Complex Wall Analysis', name closely matches query."%string).
Proof.
  apply (complexity_bonus_boundary Scenario.complex_wall_analysis "A Complex one"
           {| score := 30; reasons := [] |}).
  reflexivity.
Defined.

(** C10. For the empty query every record scores exactly 20 with the
    explanation [Recommended because name closely matches query.], so for a
    non-negative bound [k] the recommender returns the first [min(k, size)]
    catalog records, in catalog order, each with that score and explanation. *)
Theorem empty_query_recommends_everything (gs : list Graph) (k : Z) :
  0 <= k →
  (∀ g, _score_graph g EmptyString
        = (20, "Recommended because name closely matches query."%string))
  ∧ recommend gs EmptyString k
    = map (fun g => (g, 20, "Recommended because name closely matches query."%string))
        (take (Z.to_nat k) gs)
  ∧ length (recommend gs EmptyString k) = (Z.to_nat k `min` length gs)%nat.
Proof.
  intros Hk.
  assert (recommend gs EmptyString k
          = map (fun g => (g, 20, "Recommended because name closely matches query."%string))
              (take (Z.to_nat k) gs)) as E.
  { rewrite recommend_unfold by done.
    assert (map (Outcome.scored EmptyString) gs
            = map (fun g => (g, 20, "Recommended because name closely matches query."%string)) gs)
      as ->.
    { apply map_ext. intros g. unfold Outcome.scored. by rewrite score_graph_empty_query. }
    rewrite filter_all.
    - rewrite sort_desc_sorted_id; [by rewrite <- fmap_take|].
      induction gs as [|g gs' IH]; simpl; constructor; [done|].
      apply Forall_forall. intros r Hr. apply list_elem_of_fmap in Hr as (g' & -> & _).
      unfold Spec.desc, result_score; simpl. lia.
    - apply Forall_forall. intros r Hr. apply list_elem_of_fmap in Hr as (g' & -> & _).
      unfold result_score; simpl. lia. }
  split; [apply score_graph_empty_query|]. split; [done|].
  rewrite E, length_map, length_take. done.
Qed.

Lemma empty_query_recommends_everything_witness :
  (∀ g, _score_graph g EmptyString
        = (20, "Recommended because name closely matches query."%string))
  ∧ recommend [Scenario.complex_wall_analysis; Scenario.simple_rectangle] EmptyString 1
    = map (fun g => (g, 20, "Recommended because name closely matches query."%string))
        (take (Z.to_nat 1) [Scenario.complex_wall_analysis; Scenario.simple_rectangle])
  ∧ length (recommend [Scenario.complex_wall_analysis; Scenario.simple_rectangle] EmptyString 1)
    = (Z.to_nat 1 `min` length [Scenario.complex_wall_analysis; Scenario.simple_rectangle])%nat.
Proof.
  apply (empty_query_recommends_everything
           [Scenario.complex_wall_analysis; Scenario.simple_rectangle] 1).
  lia.
Defined.

(** ** The parser *)

Section ParserFacts.

Implicit Types (fs : FileSystem) (p : Path).

(** Both handlers of [parse_dyn_file] return [None]: nothing escapes. *)
Lemma parse_dyn_file_total fs p : parse_dyn_file fs p = inr (Outcome.parsed fs p).
Proof.
  unfold parse_dyn_file, Outcome.parsed, try_except, bind, ret.
  destruct (parse_dyn_try fs p) as [[]|m]; reflexivity.
Qed.

Lemma parse_documentation_total fs p :
  parse_documentation fs p = inr (Outcome.documented fs p).
Proof.
  unfold Outcome.documented, parse_documentation, try_except, bind, ret.
  destruct (fs_exists fs p) as [e|[]]; simpl; [done| |done].
  by destruct (fs_read_text fs p).
Qed.

Lemma get_inr (v r : value) (key : string) (dflt : value) :
  get v key dflt = inr r →
  ∃ items, v = JObj items ∧ r = default dflt (dict_lookup key items).
Proof.
  destruct v; unfold get, ret, raise; intros E; try discriminate E.
  injection E as <-. eauto.
Qed.

Lemma parse_dyn_try_name fs p (m : metadata) :
  parse_dyn_try fs p = inr m →
  ∃ items, fs_load_json fs p = inr (JObj items)
           ∧ md_name m = default (JStr (path_stem p)) (dict_lookup "Name" items).
Proof.
  unfold parse_dyn_try, bind.
  destruct (fs_load_json fs p) as [e|content]; [discriminate|].
  destruct (get content "Name" _) as [e|nm] eqn:En; [discriminate|].
  apply get_inr in En as (items & -> & ->). simpl.
  destruct (match dict_lookup "Nodes" items with Some (JList l) => _ | _ => _ end).
  destruct (view_of (JObj items)) as [e|vw]; [discriminate|].
  intros [= <-]. eauto.
Qed.

End ParserFacts.

(** ** The catalog *)

Section CatalogFacts.

Implicit Types (fs : FileSystem) (self : GraphCatalog) (gs : list Graph) (q : string).

Lemma set_graphs_same self : set_graphs self (graphs self) = self.
Proof. by destruct self. Qed.

Lemma set_docs_same self : set_docs self (docs self) = self.
Proof. by destruct self. Qed.

Lemma parse_each_appends fs (files : list Path) self :
  parse_each fs files self
  = inr (set_graphs self (graphs self ++ omap (Outcome.parsed fs) files)).
Proof.
  revert self. induction files as [|f files IH]; intros self; simpl.
  - by rewrite app_nil_r, set_graphs_same.
  - rewrite parse_dyn_file_total. simpl. rewrite IH.
    destruct (Outcome.parsed fs f) as [m|]; simpl; [|done].
    by rewrite <- app_assoc.
Qed.

Lemma document_each_appends fs (files : list Path) self :
  document_each fs files self
  = inr (set_docs self (docs self ++ omap (Outcome.documented fs) files)).
Proof.
  revert self. induction files as [|f files IH]; intros self; simpl.
  - by rewrite app_nil_r, set_docs_same.
  - rewrite parse_documentation_total. simpl. rewrite IH.
    destruct (Outcome.documented fs f) as [d|]; simpl; [|done].
    by rewrite <- app_assoc.
Qed.

Lemma index_docs_appends fs self :
  index_docs fs self
  = match Outcome.docs_walk_error fs (docs_path self) with
    | Some e => inl e
    | None => inr (set_docs self (docs self ++ Outcome.walked_docs fs (docs_path self)))
    end.
Proof.
  unfold index_docs, Outcome.walked_docs, Outcome.docs_walk_error, bind.
  destruct (docs_path self) as [dp|]; [|by rewrite app_nil_r, set_docs_same].
  destruct (fs_exists fs dp) as [e|[]]; [done| |by rewrite app_nil_r, set_docs_same].
  destruct (fs_rglob fs dp "*.md") as [e|md_files]; [done|].
  destruct (fs_rglob fs dp "*.txt") as [e|txt_files]; [done|].
  apply document_each_appends.
Qed.

(** What a rebuild does: it raises what a check or a walk of the disk
    raises; otherwise the graph list is that of the current walk and the
    documentation list is the old one followed by the current walk. *)
Lemma build_catalog_result fs self :
  build_catalog fs self
  = match Outcome.walk_error fs self with
    | Some e => inl e
    | None =>
        if Outcome.root_found fs self
        then inr ({| graph_repo_path := graph_repo_path self; docs_path := docs_path self;
                     graphs := Outcome.walked_graphs fs (graph_repo_path self);
                     docs := docs self ++ Outcome.walked_docs fs (docs_path self) |},
                  length (Outcome.walked_graphs fs (graph_repo_path self)))
        else inr ({| graph_repo_path := graph_repo_path self; docs_path := docs_path self;
                     graphs := []; docs := docs self |}, 0%nat)
    end.
Proof.
  unfold build_catalog, Outcome.walk_error, Outcome.root_found, Outcome.walked_graphs.
  cbn [set_graphs graph_repo_path]. unfold bind at 1.
  destruct (fs_exists fs (graph_repo_path self)) as [e|[]]; [done| |done].
  cbn [negb]. unfold bind at 1.
  destruct (fs_rglob fs (graph_repo_path self) "*.dyn") as [e|dyn_files]; [done|].
  rewrite parse_each_appends. cbn [bind].
  rewrite index_docs_appends. cbn [set_graphs docs_path docs graphs app].
  by destruct (Outcome.docs_walk_error fs (docs_path self)).
Qed.

Lemma search_each_filter gs (ql : string) (results : list Graph) :
  search_each gs ql results
  = results ++ filter (fun g => contains ql (searchable_text g) = true) gs.
Proof.
  revert results. induction gs as [|g gs IH]; intros results; simpl.
  - by rewrite app_nil_r.
  - rewrite IH, filter_cons. destruct (contains ql (searchable_text g)).
    + rewrite decide_True by done. by rewrite <- app_assoc.
    + by rewrite decide_False.
Qed.

End CatalogFacts.

(** C3, as stated, fails: with the fields read as one plain concatenation,
    the record [Wall] / [Area] / [Geometry] contains the query [llar], yet
    the search, which puts a space between the fields, does not return it. *)
Lemma search_graphs_not_plain_concatenation :
  ¬ (∀ (gs : list Graph) (q : string) (g : Graph),
       g ∈ search_graphs gs q
       ↔ g ∈ gs ∧ contains (lower q) (lower (Spec.plain_concatenation g)) = true).
Proof.
  intros H. specialize (H [Disk.wall_area] "llar"%string Disk.wall_area).
  assert (Disk.wall_area ∈ search_graphs [Disk.wall_area] "llar") as Hin.
  { apply H. split; [left|vm_compute; reflexivity]. }
  vm_compute in Hin. inversion Hin.
Qed.

(** C3, amended. [search_graphs] returns exactly the records of the catalog
    for which the lower-cased query is a substring of the lower-cased text
    made of the name, the description, the category and the node names, with a
    single space between consecutive fields and between consecutive node
    names; the records come in catalog order, as a subsequence of the
    catalog. *)
Theorem search_graphs_matches_spaced_text (gs : list Graph) (q : string) :
  search_graphs gs q
  = filter (fun g => contains (lower q) (lower (Spec.spaced_concatenation g)) = true) gs
  ∧ search_graphs gs q `sublist_of` gs
  ∧ ∀ g, g ∈ search_graphs gs q
         ↔ g ∈ gs ∧ contains (lower q) (lower (Spec.spaced_concatenation g)) = true.
Proof.
  assert (search_graphs gs q
          = filter (fun g => contains (lower q) (lower (Spec.spaced_concatenation g)) = true) gs)
    as E by (unfold search_graphs; by rewrite search_each_filter).
  rewrite E. split; [done|]. split; [apply sublist_filter|].
  intros g. rewrite list_elem_of_filter. tauto.
Qed.

(** C4. A rebuild clears the graph records only. On the sample disk the
    first rebuild loads the one guide; a second rebuild of the same disk
    returns fresh graph records but holds the guide twice, and a rebuild
    after the guide was deleted still holds it: documentation records are
    carried over from before the call. *)
Theorem build_catalog_carries_docs_over :
  ∃ c1 c2 c3 : GraphCatalog,
    build_catalog Disk.sample (init Disk.repo (Some Disk.manuals)) = inr (c1, 3%nat)
    ∧ docs c1 = [Disk.guide_doc]
    ∧ build_catalog Disk.sample c1 = inr (c2, 3%nat)
    ∧ graphs c2 = graphs c1
    ∧ docs c2 = [Disk.guide_doc; Disk.guide_doc]
    ∧ Outcome.walked_docs Disk.sample (docs_path c1) = [Disk.guide_doc]
    ∧ build_catalog Disk.guide_deleted c1 = inr (c3, 3%nat)
    ∧ docs c3 = [Disk.guide_doc]
    ∧ Outcome.walked_docs Disk.guide_deleted (docs_path c1) = [].
Proof.
  eexists _, _, _.
  split; [vm_compute; reflexivity|].
  split; [reflexivity|].
  split; [vm_compute; reflexivity|].
  repeat split.
Qed.

(** C5, as stated, fails: a file whose [Name] is the empty string parses
    to a record with an empty name, and that record is a well-typed graph
    record. *)
Lemma parse_dyn_file_empty_name :
  ¬ (∀ (fs : FileSystem) (p : Path) (m : metadata),
       parse_dyn_file fs p = inr (Some m) → md_name m ≠ JStr EmptyString)
  ∧ parse_dyn_file Disk.sample Disk.blank_dyn = inr (Some Disk.blank_metadata)
  ∧ name <$> as_graph Disk.blank_metadata = Some EmptyString.
Proof.
  assert (parse_dyn_file Disk.sample Disk.blank_dyn = inr (Some Disk.blank_metadata)) as E
    by (vm_compute; reflexivity).
  split; [|split; [exact E|reflexivity]].
  intros H. by apply (H _ _ _ E).
Qed.

(** C5, amended. The name of a parsed record is the value the source gives
    for [Name] when it has that key, whatever the value, and the file stem
    when it has not; so the name is not the empty string when the key is
    absent and the file stem is not empty. *)
Theorem parse_dyn_file_name (fs : FileSystem) (p : Path) (m : metadata) :
  parse_dyn_file fs p = inr (Some m) →
  ∃ items,
    fs_load_json fs p = inr (JObj items)
    ∧ md_name m = default (JStr (path_stem p)) (dict_lookup "Name" items)
    ∧ (dict_lookup "Name" items = None → path_stem p ≠ EmptyString →
       md_name m ≠ JStr EmptyString).
Proof.
  rewrite parse_dyn_file_total. unfold Outcome.parsed.
  destruct (parse_dyn_try fs p) as [e|m'] eqn:E; [discriminate|].
  intros [= ->]. apply parse_dyn_try_name in E as (items & Hload & Hname).
  exists items. split; [done|]. split; [done|].
  intros Hnone Hstem. rewrite Hname, Hnone. simpl. congruence.
Qed.

Lemma parse_dyn_file_name_witness :
  ∃ items,
    fs_load_json Disk.sample Disk.untitled_dyn = inr (JObj items)
    ∧ md_name Disk.untitled_metadata
      = default (JStr (path_stem Disk.untitled_dyn)) (dict_lookup "Name" items)
    ∧ (dict_lookup "Name" items = None → path_stem Disk.untitled_dyn ≠ EmptyString →
       md_name Disk.untitled_metadata ≠ JStr EmptyString).
Proof.
  apply (parse_dyn_file_name Disk.sample Disk.untitled_dyn Disk.untitled_metadata).
  vm_compute. reflexivity.
Defined.

(** C7. [get_graph_by_name] returns the first catalog record, in catalog
    order, whose name equals the argument when case is ignored, and reports
    not-found exactly when no record has such a name. *)
Theorem get_graph_by_name_first_match (gs : list Graph) (n : string) :
  match get_graph_by_name gs n with
  | Some g =>
      ∃ before after,
        gs = before ++ g :: after
        ∧ Spec.equal_ignoring_case (name g) n
        ∧ Forall (fun r => ¬ Spec.equal_ignoring_case (name r) n) before
  | None => Forall (fun r => ¬ Spec.equal_ignoring_case (name r) n) gs
  end.
Proof.
  induction gs as [|g gs IH]; simpl; [constructor|].
  destruct (String.eqb_spec (lower (name g)) (lower n)) as [E|E].
  - exists [], gs. repeat split; [by apply lower_eq_ignoring_case|constructor].
  - assert (¬ Spec.equal_ignoring_case (name g) n) as E'
      by (by rewrite <- lower_eq_ignoring_case).
    destruct (get_graph_by_name gs n) as [g'|].
    + destruct IH as (before & after & -> & Hg' & Hb).
      exists (g :: before), after. repeat split; [done|]. by constructor.
    + by constructor.
Qed.

(** C8, as stated, fails: when the existence check of the repository path
    raises (the path cannot be examined), [build_catalog] raises that error
    to its caller; and when the repository is missing, a catalog that held
    a documentation record still holds it, so the catalog is not empty. *)
Lemma build_catalog_can_raise :
  build_catalog Disk.repo_unreachable (init Disk.repo (Some Disk.manuals)) = inl OSError
  ∧ ∃ c, build_catalog Disk.repo_removed Disk.built = inr (c, 0%nat)
         ∧ graphs c = []
         ∧ docs c = [Disk.guide_doc].
Proof. split; [reflexivity|]. eexists. repeat split. Qed.

(** C8, amended. [build_catalog] raises to its caller only what an
    existence check or a walk of the disk raises, and raises nothing when
    these return. No file makes it raise: the parser turns every exception of
    a file into [None]. When the existence check reports the repository
    missing, the catalog has no graph record and the count is 0; when the
    checks and walks return, the graph records are those of the files that
    parse, in walk order, a file that fails being left out, and the count is
    their number. *)
Theorem build_catalog_raises_only_walk_errors (fs : FileSystem) (self : GraphCatalog) :
  (∀ p, parse_dyn_file fs p = inr (Outcome.parsed fs p))
  ∧ match Outcome.walk_error fs self with
    | Some e => build_catalog fs self = inl e
    | None =>
        ∃ (self' : GraphCatalog) (count : nat),
          build_catalog fs self = inr (self', count)
          ∧ count = length (graphs self')
          ∧ match fs_exists fs (graph_repo_path self),
                  fs_rglob fs (graph_repo_path self) "*.dyn" with
            | inr true, inr dyn_files => graphs self' = omap (Outcome.parsed fs) dyn_files
            | _, _ => graphs self' = [] ∧ count = 0%nat
            end
    end
  ∧ ((∀ p, ∃ found, fs_exists fs p = inr found) →
     (∀ p pattern, ∃ files, fs_rglob fs p pattern = inr files) →
     Outcome.walk_error fs self = None).
Proof.
  split; [apply parse_dyn_file_total|]. split.
  - rewrite build_catalog_result.
    unfold Outcome.walk_error, Outcome.root_found, Outcome.walked_graphs.
    destruct (fs_exists fs (graph_repo_path self)) as [e|[]]; [done| |].
    + destruct (fs_rglob fs (graph_repo_path self) "*.dyn") as [e|dyn_files]; [done|].
      destruct (Outcome.docs_walk_error fs (docs_path self)); [done|].
      by eexists _, _.
    + eexists _, _. split; [done|]. split; [done|].
      by destruct (fs_rglob fs (graph_repo_path self) "*.dyn").
  - intros Hexists Hrglob. unfold Outcome.walk_error, Outcome.docs_walk_error.
    destruct (Hexists (graph_repo_path self)) as [[] ->]; [|done].
    destruct (Hrglob (graph_repo_path self) "*.dyn"%string) as [? ->].
    destruct (docs_path self) as [dp|]; [|done].
    destruct (Hexists dp) as [[] ->]; [|done].
    destruct (Hrglob dp "*.md"%string) as [? ->].
    by destruct (Hrglob dp "*.txt"%string) as [? ->].
Qed.


(** ** The executor *)

Section ExecutorFacts.

Import Executor.
Implicit Types (w : Runtime) (self : DynamoExecutor) (graph : Graph) (run_flag : bool).

Lemma can_execute_gates w self :
  can_execute w self
  = (allow_execution self && negb (String.eqb (dynamo_cli_path self) EmptyString)
     && path_exists w (dynamo_cli_path self))%bool.
Proof.
  unfold can_execute. destruct (allow_execution self); [|done]. simpl.
  destruct (dynamo_cli_path self) as [|c rest]; [done|]. simpl.
  by destruct (path_exists w (String c rest)).
Qed.

Lemma execute_graph_blocked w self graph run_flag :
  gates w self graph run_flag = false →
  ∃ msg, execute_graph w self graph run_flag = (with_message initial_result msg, [])
         ∧ (0 < String.length msg)%nat.
Proof.
  unfold gates, execute_graph. rewrite can_execute_gates.
  destruct (allow_execution self); simpl; [|eexists; split; [done|simpl; lia]].
  destruct run_flag; simpl; [|eexists; split; [done|simpl; lia]].
  destruct (negb (String.eqb (dynamo_cli_path self) EmptyString)); simpl;
    [|eexists; split; [done|simpl; lia]].
  destruct (path_exists w (dynamo_cli_path self)); simpl;
    [|eexists; split; [done|simpl; lia]].
  intros ->. simpl. eexists; split; [done|simpl; lia].
Qed.

Lemma execute_graph_launched w self graph run_flag :
  gates w self graph run_flag = true →
  execute_graph w self graph run_flag
  = let cmd := [dynamo_cli_path self; path_text w (filepath graph)] in
    match run w cmd with
    | Completed returncode stdout stderr =>
        ({| success := returncode =? 0; executed := true;
            message :=
              if returncode =? 0 then "Graph '" +:+ name graph +:+ "' executed successfully"
              else "Graph '" +:+ name graph +:+ "' execution failed with code "
                   +:+ str_of_int returncode;
            output := stdout; error := stderr |}, [cmd])
    | TimeoutExpired =>
        (with_message initial_result ("Graph '" +:+ name graph +:+ "' execution timed out"),
         [cmd])
    | Raised e =>
        (with_message initial_result
           ("Graph '" +:+ name graph +:+ "' execution error: " +:+ e), [cmd])
    end.
Proof.
  unfold gates, execute_graph. rewrite can_execute_gates.
  rewrite !andb_true_iff. intros [[[[-> ->] ->] ->] ->]. reflexivity.
Qed.

End ExecutorFacts.

(** X1. [execute_graph] hands a command to [subprocess.run] only when
    execution is allowed, the run flag is given, the Dynamo path is set and
    exists, and the graph file exists; it then hands over exactly one
    command, the Dynamo path followed by the graph path. *)
Theorem execute_graph_launches_behind_gates
    (w : Executor.Runtime) (self : Executor.DynamoExecutor) (graph : Graph) (run_flag : bool) :
  (Executor.execute_graph w self graph run_flag).2
  = if Executor.gates w self graph run_flag
    then [[Executor.dynamo_cli_path self; Executor.path_text w (filepath graph)]]
    else [].
Proof.
  destruct (Executor.gates w self graph run_flag) eqn:G.
  - rewrite (execute_graph_launched _ _ _ _ G). simpl.
    by destruct (Executor.run w _).
  - by destruct (execute_graph_blocked _ _ _ _ G) as (msg & -> & _).
Qed.

(** X2. In the result of [execute_graph], [executed] is set exactly when a
    command was launched and the process completed, and [success] exactly
    when it completed with exit code 0: a timeout or an exception of the
    launch leaves [executed] unset. The captured output and error text are
    those of the completed process and empty otherwise, and the message is
    never empty. *)
Theorem execute_graph_result_flags
    (w : Executor.Runtime) (self : Executor.DynamoExecutor) (graph : Graph) (run_flag : bool) :
  let r := (Executor.execute_graph w self graph run_flag).1 in
  let o := Executor.run w [Executor.dynamo_cli_path self; Executor.path_text w (filepath graph)] in
  Executor.executed r
  = (Executor.gates w self graph run_flag && bool_decide (is_Some (Executor.exit_code o)))%bool
  ∧ Executor.success r
    = (Executor.gates w self graph run_flag && bool_decide (Executor.exit_code o = Some 0))%bool
  ∧ (Executor.output r, Executor.error r)
    = (if Executor.executed r
       then match o with
            | Executor.Completed _ stdout stderr => (stdout, stderr)
            | _ => (EmptyString, EmptyString)
            end
       else (EmptyString, EmptyString))
  ∧ (0 < String.length (Executor.message r))%nat.
Proof.
  intros r o. subst r o.
  destruct (Executor.gates w self graph run_flag) eqn:G.
  - rewrite (execute_graph_launched _ _ _ _ G). cbn zeta.
    destruct (Executor.run w _) as [rc out err| |e]; simpl.
    + repeat split.
      * destruct (rc =? 0) eqn:E.
        -- apply Z.eqb_eq in E as ->. done.
        -- apply Z.eqb_neq in E. symmetry. apply bool_decide_eq_false. congruence.
      * destruct (rc =? 0); simpl; lia.
    + repeat split. lia.
    + repeat split. lia.
  - destruct (execute_graph_blocked _ _ _ _ G) as (msg & -> & Hmsg). simpl.
    repeat split. done.
Qed.

Section MoreTextFacts.

Lemma append_cons (c : ascii) (s t : string) : String c s +:+ t = String c (s +:+ t).
Proof. reflexivity. Qed.

Lemma append_empty_r (s : string) : s +:+ EmptyString = s.
Proof. induction s as [|c s IH]; [done|]. by rewrite append_cons, IH. Qed.

Lemma append_assoc (a b c : string) : (a +:+ b) +:+ c = a +:+ (b +:+ c).
Proof. induction a as [|x a IH]; [done|]. by rewrite !append_cons, IH. Qed.

Lemma lower_app (a b : string) : lower (a +:+ b) = lower a +:+ lower b.
Proof.
  induction a as [|x a IH]; [done|].
  rewrite append_cons. cbn [lower]. by rewrite append_cons, IH.
Qed.

Lemma contains_refl (s : string) : contains s s = true.
Proof. apply contains_spec. exists EmptyString, EmptyString. by rewrite append_empty_r. Qed.

Lemma contains_prefix (s rest : string) : contains s (s +:+ rest) = true.
Proof. apply contains_spec. by exists EmptyString, rest. Qed.

Lemma contains_trans (a b c : string) :
  contains a b = true → contains b c = true → contains a c = true.
Proof.
  rewrite !contains_spec. intros (x & y & ->) (u & v & ->).
  exists (u +:+ x), (y +:+ v). by rewrite !append_assoc.
Qed.

Lemma lower_true_ignoring_case (v : string) :
  String.eqb (lower v) "true" = true ↔ Spec.equal_ignoring_case v "true".
Proof. rewrite String.eqb_eq. apply (lower_eq_ignoring_case v "true"). Qed.

End MoreTextFacts.

(** X3. With the executor the commands build from the environment, a
    command reaches [subprocess.run] only if the run flag is given,
    [ALLOW_EXECUTION] is set to [true] in some letter case,
    [DYNAMO_CLI_PATH] is set to a non-empty path that exists, and the graph
    file exists; the command is that path followed by the graph path. *)
Theorem cli_launch_needs_environment
    (env : string → option string) (w : Executor.Runtime) (g : Graph) (flag : bool)
    (cmd : list string) :
  cmd ∈ (Executor.execute_graph w (Cli.executor_from_env env) g flag).2 →
  flag = true
  ∧ (∃ v, env "ALLOW_EXECUTION"%string = Some v ∧ Spec.equal_ignoring_case v "true")
  ∧ (∃ cli, env "DYNAMO_CLI_PATH"%string = Some cli
            ∧ (0 < String.length cli)%nat
            ∧ Executor.path_exists w cli = true
            ∧ cmd = [cli; Executor.path_text w (filepath g)])
  ∧ Executor.path_exists w (filepath g) = true.
Proof.
  destruct (Executor.gates w (Cli.executor_from_env env) g flag) eqn:G.
  - rewrite (execute_graph_launched _ _ _ _ G).
    unfold Executor.gates, Cli.executor_from_env, Cli.getenv in G. simpl in G.
    rewrite !andb_true_iff in G. destruct G as [[[[Hallow ->] Hset] Hcli] Hfile].
    intros Hin.
    assert (cmd = [Executor.dynamo_cli_path (Cli.executor_from_env env);
                   Executor.path_text w (filepath g)]) as ->.
    { cbn zeta in Hin. destruct (Executor.run w _); simpl in Hin;
        by apply list_elem_of_singleton in Hin. }
    unfold Cli.executor_from_env, Cli.getenv. simpl.
    split; [done|]. split; [|split; [|done]].
    + destruct (env "ALLOW_EXECUTION"%string) as [v|]; [|discriminate].
      exists v. split; [done|]. by apply lower_true_ignoring_case.
    + destruct (env "DYNAMO_CLI_PATH"%string) as [cli|]; [|discriminate].
      exists cli. simpl in *. repeat split; [|done].
      destruct cli; [discriminate|simpl; lia].
  - destruct (execute_graph_blocked _ _ _ _ G) as (msg & -> & _). simpl.
    intros Hin. by apply not_elem_of_nil in Hin.
Qed.

Lemma cli_launch_needs_environment_witness :
  true = true
  ∧ (∃ v, Machine.env_enabled "ALLOW_EXECUTION" = Some v ∧ Spec.equal_ignoring_case v "true")
  ∧ (∃ cli, Machine.env_enabled "DYNAMO_CLI_PATH" = Some cli
            ∧ (0 < String.length cli)%nat
            ∧ Executor.path_exists Machine.sample cli = true
            ∧ [Machine.dynamo; "/graphs/test0.dyn"%string]
              = [cli; Executor.path_text Machine.sample (filepath Scenario.simple_rectangle)])
  ∧ Executor.path_exists Machine.sample (filepath Scenario.simple_rectangle) = true.
Proof.
  apply (cli_launch_needs_environment Machine.env_enabled Machine.sample
           Scenario.simple_rectangle true [Machine.dynamo; "/graphs/test0.dyn"%string]).
  vm_compute. left.
Defined.

(** ** More on the recommender *)

Section RankingFacts.

Implicit Types (g : Graph) (q : string) (gs : list Graph) (k : Z) (r : Result).

(** The ranking before truncation. *)
Lemma recommend_slice gs q k :
  recommend gs q k
  = slice_to (sort_desc result_score
                (filter (fun r => 0 < result_score r) (map (Outcome.scored q) gs))) k.
Proof.
  unfold recommend. destruct gs as [|g gs]; [|by rewrite score_each_filter].
  simpl. unfold slice_to. by destruct (0 <=? k); destruct (_ : nat).
Qed.

Lemma slice_to_subseteq {A} (l : list A) k : slice_to l k ⊆ l.
Proof. unfold slice_to. destruct (0 <=? k); apply subseteq_take. Qed.

Lemma recommend_elem gs q k r :
  r ∈ recommend gs q k →
  0 < result_score r ∧ ∃ g, g ∈ gs ∧ r = Outcome.scored q g.
Proof.
  rewrite recommend_slice. intros Hr. apply slice_to_subseteq in Hr.
  rewrite sort_desc_perm in Hr. apply list_elem_of_filter in Hr as [Hpos Hr].
  apply list_elem_of_fmap in Hr as (g & -> & Hg). eauto.
Qed.

Lemma recommend_head_max gs q k :
  0 < k →
  match recommend gs q k with
  | [] => Forall (fun g => (_score_graph g q).1 <= 0) gs
  | r :: _ => Forall (fun g => (_score_graph g q).1 <= result_score r) gs
  end.
Proof.
  intros Hk. rewrite recommend_unfold by lia.
  pose proof (sort_desc_perm result_score
    (filter (fun r => 0 < result_score r) (map (Outcome.scored q) gs))) as Hperm.
  pose proof (sort_desc_sorted result_score
    (filter (fun r => 0 < result_score r) (map (Outcome.scored q) gs))) as Hsorted.
  destruct (sort_desc result_score _) as [|r rest].
  - rewrite take_nil. apply Forall_forall. intros g Hg.
    destruct (decide (0 < (_score_graph g q).1)) as [Hpos|]; [|lia].
    assert (Outcome.scored q g ∈ @nil Result) as Hin; [|by apply not_elem_of_nil in Hin].
    rewrite Hperm. apply list_elem_of_filter. split; [done|].
    apply list_elem_of_fmap. eauto.
  - destruct (Z.to_nat k) as [|n] eqn:E; [lia|]. cbn [take].
    assert (0 < result_score r) as Hr.
    { assert (r ∈ r :: rest) as Hin by left. rewrite Hperm in Hin.
      by apply list_elem_of_filter in Hin as [? _]. }
    apply StronglySorted_inv in Hsorted as [_ Hrest]. rewrite Forall_forall in Hrest.
    apply Forall_forall. intros g Hg.
    destruct (decide (0 < (_score_graph g q).1)) as [Hpos|]; [|lia].
    assert (Outcome.scored q g ∈ r :: rest) as Hin.
    { rewrite Hperm. apply list_elem_of_filter. split; [done|].
      apply list_elem_of_fmap. eauto. }
    apply elem_of_cons in Hin as [<-|Hin]; [done|].
    by apply Hrest in Hin.
Qed.

Lemma score_graph_lower q q' g : lower q = lower q' → _score_graph g q = _score_graph g q'.
Proof. intros E. unfold _score_graph, _score_graph_in. by rewrite E. Qed.

Lemma own_name_score g :
  20 + 10 * Z.of_nat (size (words (lower (name g)))) <= (_score_graph g (name g)).1.
Proof.
  rewrite score_graph_signals. simpl.
  pose proof (signals_nonneg g (name g)) as Hn. unfold Spec.signals in Hn.
  repeat (apply Forall_cons in Hn as [? Hn]). simpl in *.
  assert (Spec.name_word_overlap g (name g) = Z.of_nat (size (words (lower (name g)))) * 10)
    as E1.
  { unfold Spec.name_word_overlap, Spec.query_tokens, Spec.raw_query.
    by rewrite intersection_idemp_L. }
  assert (Spec.name_substring_bonus g (name g) = 20) as E2.
  { unfold Spec.name_substring_bonus, Spec.raw_query. by rewrite contains_refl. }
  unfold Spec.score. lia.
Qed.

Lemma bonuses_exclusive g q : Spec.complexity_bonus g q + Spec.simplicity_bonus g q <= 5.
Proof.
  unfold Spec.complexity_bonus, Spec.simplicity_bonus.
  destruct (any_in _ _), (any_in _ _); simpl; repeat case_bool_decide; simpl; lia.
Qed.

End RankingFacts.

(** X4. Every result of [recommend] is explained consistently:
    [explain_recommendation] on its graph and the same query shows the
    score of the result, with one decimal, and the explanation of the result
    on the second and third lines of the block. *)
Theorem explain_recommendation_matches_result
    (gs : list Graph) (q : string) (k : Z) (r : Result) :
  r ∈ recommend gs q k →
  explain_recommendation (result_graph r) q
  = join newline
      [ "Graph: " +:+ name (result_graph r);
        "Score: " +:+ str_of_nat (Z.to_nat (result_score r)) +:+ ".0";
        "Explanation: " +:+ result_explanation r;
        EmptyString;
        "Graph Details:"%string;
        "  - Description: " +:+ or_na (description (result_graph r));
        "  - Category: " +:+ category (result_graph r);
        "  - Nodes: " +:+ str_of_nat (node_count (result_graph r));
        "  - Connectors: " +:+ str_of_nat (connector_count (result_graph r));
        "  - Path: " +:+ filepath (result_graph r) ].
Proof.
  intros Hr. apply recommend_elem in Hr as (Hpos & g & _ & ->).
  unfold Outcome.scored, result_graph, result_score, result_explanation,
    explain_recommendation in *.
  cbn [fst snd] in *.
  destruct (_score_graph g q) as [sc ex]. cbn [fst snd] in *.
  unfold format_1f, str_of_int. by rewrite (proj2 (Z.ltb_ge sc 0)) by lia.
Qed.

Lemma explain_recommendation_matches_result_witness :
  let r : Result :=
    (Scenario.simple_rectangle, 35,
     "Recommended because name matches 'Simple Rectangle', name closely matches query, simple graph with 3 nodes."%string) in
  explain_recommendation (result_graph r) "simple"
  = join newline
      [ "Graph: " +:+ name (result_graph r);
        "Score: " +:+ str_of_nat (Z.to_nat (result_score r)) +:+ ".0";
        "Explanation: " +:+ result_explanation r;
        EmptyString;
        "Graph Details:"%string;
        "  - Description: " +:+ or_na (description (result_graph r));
        "  - Category: " +:+ category (result_graph r);
        "  - Nodes: " +:+ str_of_nat (node_count (result_graph r));
        "  - Connectors: " +:+ str_of_nat (connector_count (result_graph r));
        "  - Path: " +:+ filepath (result_graph r) ].
Proof.
  apply (explain_recommendation_matches_result
           [Scenario.simple_rectangle; Scenario.complex_wall_analysis] "simple" 5).
  vm_compute. left.
Defined.

(** X5. The complexity and the simplicity bonus never both apply to one
    record and query: one of the two blocks leaves the score and reasons
    untouched, so together they add at most 5. *)
Theorem bonuses_never_both_fire (g : Graph) (q : string) (a b : acc) :
  (score_complexity g (lower q) a = a ∨ score_simplicity g (lower q) b = b)
  ∧ score (score_simplicity g (lower q) (score_complexity g (lower q) a)) <= score a + 5.
Proof.
  unfold score_complexity, score_simplicity.
  destruct (any_in complexity_keywords (lower q)), (any_in simplicity_keywords (lower q));
    destruct (10 <? node_count g)%nat eqn:E1, (node_count g <=? 5)%nat eqn:E2;
    simpl; try (split; [tauto|lia]).
  all: apply Nat.ltb_lt in E1; apply Nat.leb_le in E2; lia.
Qed.

(** X6. The score is bounded by the size of the query and of the record:
    at most 22 points per distinct query token, 3 per node, and 25 for
    the name bonus and one keyword bonus. *)
Theorem score_graph_upper_bound (g : Graph) (q : string) :
  (_score_graph g q).1
  <= 22 * Z.of_nat (size (words (lower q))) + 3 * Z.of_nat (length (nodes g)) + 25.
Proof.
  rewrite score_graph_signals. simpl. unfold Spec.score.
  pose proof (bonuses_exclusive g q) as Hb.
  assert (∀ X : gset string, (size (Spec.query_tokens q ∩ X) <= size (words (lower q)))%nat)
    as Hsz by (intros X; apply subseteq_size, intersection_subseteq_l).
  assert (Spec.name_word_overlap g q <= 10 * Z.of_nat (size (words (lower q)))) as H1.
  { unfold Spec.name_word_overlap. specialize (Hsz (words (lower (name g)))). lia. }
  assert (Spec.name_substring_bonus g q <= 20) as H2.
  { unfold Spec.name_substring_bonus. destruct (_ || _)%bool; lia. }
  assert (Spec.description_word_overlap g q <= 5 * Z.of_nat (size (words (lower q)))) as H3.
  { unfold Spec.description_word_overlap. destruct (decide _); [lia|].
    specialize (Hsz (words (lower (description g)))). lia. }
  assert (Spec.category_word_overlap g q <= 7 * Z.of_nat (size (words (lower q)))) as H4.
  { unfold Spec.category_word_overlap. specialize (Hsz (words (lower (category g)))). lia. }
  assert (Spec.node_relevance g q <= 3 * Z.of_nat (length (nodes g))) as H5.
  { assert (Spec.matched_nodes g q <= length (nodes g))%nat as Hm by apply length_filter.
    unfold Spec.node_relevance. lia. }
  lia.
Qed.

(** X7. Asking for a catalog record by its own name always recommends
    something: for a positive bound the result is not empty and its first
    entry scores at least 20 plus 10 for every distinct word of the name. *)
Theorem recommend_own_name (gs : list Graph) (g : Graph) (k : Z) :
  g ∈ gs → 0 < k →
  ∃ r rest,
    recommend gs (name g) k = r :: rest
    ∧ 20 + 10 * Z.of_nat (size (words (lower (name g)))) <= result_score r.
Proof.
  intros Hg Hk. pose proof (recommend_head_max gs (name g) k Hk) as H.
  pose proof (own_name_score g) as Hown.
  destruct (recommend gs (name g) k) as [|r rest]; rewrite Forall_forall in H;
    specialize (H g Hg); [lia|].
  exists r, rest. split; [done|lia].
Qed.

Lemma recommend_own_name_witness :
  ∃ r rest,
    recommend [Scenario.simple_rectangle; Scenario.complex_wall_analysis]
      (name Scenario.complex_wall_analysis) 1 = r :: rest
    ∧ 20 + 10 * Z.of_nat (size (words (lower (name Scenario.complex_wall_analysis))))
      <= result_score r.
Proof.
  apply (recommend_own_name [Scenario.simple_rectangle; Scenario.complex_wall_analysis]
           Scenario.complex_wall_analysis 1).
  - vm_compute. right. left.
  - lia.
Defined.

(** X8. The best match comes first: for a positive bound, the first result
    of [recommend] scores at least as much as every record of the catalog,
    and the result is empty only when no record scores above 0. *)
Theorem recommend_best_first (gs : list Graph) (q : string) (k : Z) :
  0 < k →
  match recommend gs q k with
  | [] => Forall (fun g => (_score_graph g q).1 <= 0) gs
  | r :: _ => Forall (fun g => (_score_graph g q).1 <= result_score r) gs
  end.
Proof. apply recommend_head_max. Qed.

Lemma recommend_best_first_witness :
  match recommend [Scenario.complex_wall_analysis; Scenario.simple_rectangle] "wall rectangle" 2 with
  | [] => Forall (fun g => (_score_graph g "wall rectangle").1 <= 0)
            [Scenario.complex_wall_analysis; Scenario.simple_rectangle]
  | r :: _ => Forall (fun g => (_score_graph g "wall rectangle").1 <= result_score r)
                [Scenario.complex_wall_analysis; Scenario.simple_rectangle]
  end.
Proof.
  apply (recommend_best_first
           [Scenario.complex_wall_analysis; Scenario.simple_rectangle] "wall rectangle" 2).
  lia.
Defined.

Section BoundFacts.

Implicit Types (g : Graph) (q : string) (gs : list Graph) (k : Z).

Lemma ranking_length gs q :
  (length (sort_desc result_score
             (filter (fun r => (0 < result_score r)%Z) (map (Outcome.scored q) gs)))
   <= length gs)%nat.
Proof.
  rewrite (Permutation_length (sort_desc_perm _ _)).
  etrans; [apply length_filter|]. by rewrite length_map.
Qed.

Lemma recommend_full gs q k :
  Z.of_nat (length gs) <= k →
  recommend gs q k
  = sort_desc result_score
      (filter (fun r => 0 < result_score r) (map (Outcome.scored q) gs)).
Proof.
  intros Hk. rewrite recommend_unfold by lia. apply take_ge.
  pose proof (ranking_length gs q). lia.
Qed.

Lemma score_each_lower gs q q' (scored_graphs : list Result) :
  lower q = lower q' → score_each gs q scored_graphs = score_each gs q' scored_graphs.
Proof.
  intros E. revert scored_graphs. induction gs as [|g gs IH]; intros scored_graphs; [done|].
  rewrite !score_each_cons, IH. unfold Outcome.scored.
  by rewrite (score_graph_lower q q' g E).
Qed.

End BoundFacts.

(** X9. A larger bound only adds results at the end: for bounds
    [0 <= k <= k'] the result for [k] is the beginning of the result
    for [k']. *)
Theorem recommend_prefix_in_bound (gs : list Graph) (q : string) (k k' : Z) :
  0 <= k → k <= k' → recommend gs q k `prefix_of` recommend gs q k'.
Proof.
  intros Hk Hk'. rewrite !recommend_unfold by lia.
  set (ranking := sort_desc _ _).
  replace (take (Z.to_nat k) ranking) with (take (Z.to_nat k) (take (Z.to_nat k') ranking)).
  - apply prefix_take.
  - rewrite take_take. f_equal. lia.
Qed.

Lemma recommend_prefix_in_bound_witness :
  recommend [Scenario.complex_wall_analysis; Scenario.simple_rectangle] "wall rectangle" 1
  `prefix_of`
  recommend [Scenario.complex_wall_analysis; Scenario.simple_rectangle] "wall rectangle" 2.
Proof.
  apply (recommend_prefix_in_bound
           [Scenario.complex_wall_analysis; Scenario.simple_rectangle] "wall rectangle" 1 2);
    lia.
Defined.

(** X10. A bound at least the size of the catalog returns the whole
    ranking: every record that scores above 0 is returned, once for each
    time it is in the catalog, and nothing else. *)
Theorem recommend_returns_all_matches (gs : list Graph) (q : string) (k : Z) :
  Z.of_nat (length gs) <= k →
  recommend gs q k ≡ₚ filter (fun r => 0 < result_score r) (map (Outcome.scored q) gs).
Proof. intros Hk. rewrite recommend_full by done. apply sort_desc_perm. Qed.

Lemma recommend_returns_all_matches_witness :
  recommend [Scenario.complex_wall_analysis; Scenario.simple_rectangle] "wall rectangle" 2
  ≡ₚ filter (fun r => 0 < result_score r)
       (map (Outcome.scored "wall rectangle")
          [Scenario.complex_wall_analysis; Scenario.simple_rectangle]).
Proof.
  apply (recommend_returns_all_matches
           [Scenario.complex_wall_analysis; Scenario.simple_rectangle] "wall rectangle" 2).
  simpl. lia.
Defined.

(** X11. A bound of 0 returns nothing, and a negative bound [k] does not:
    as the slice [[:k]] does, it returns the whole ranking without its
    last [-k] entries. *)
Theorem recommend_negative_bound (gs : list Graph) (q : string) (k : Z) :
  k < 0 →
  recommend gs q 0 = []
  ∧ recommend gs q k
    = take (length (recommend gs q (Z.of_nat (length gs))) - Z.to_nat (- k))
        (recommend gs q (Z.of_nat (length gs))).
Proof.
  intros Hk. split.
  - rewrite recommend_unfold by lia. apply take_0.
  - rewrite (recommend_full gs q (Z.of_nat (length gs))) by lia.
    rewrite recommend_slice. unfold slice_to.
    by rewrite (proj2 (Z.leb_gt _ _)) by lia.
Qed.

Lemma recommend_negative_bound_witness :
  recommend [Scenario.complex_wall_analysis; Scenario.simple_rectangle] "wall rectangle" 0 = []
  ∧ recommend [Scenario.complex_wall_analysis; Scenario.simple_rectangle] "wall rectangle" (-1)
    = take (length (recommend [Scenario.complex_wall_analysis; Scenario.simple_rectangle]
                      "wall rectangle"
                      (Z.of_nat (length [Scenario.complex_wall_analysis;
                                         Scenario.simple_rectangle])))
            - Z.to_nat (- -1))
        (recommend [Scenario.complex_wall_analysis; Scenario.simple_rectangle]
           "wall rectangle"
           (Z.of_nat (length [Scenario.complex_wall_analysis; Scenario.simple_rectangle]))).
Proof.
  apply (recommend_negative_bound
           [Scenario.complex_wall_analysis; Scenario.simple_rectangle] "wall rectangle" (-1)).
  lia.
Defined.

(** X12. The letter case of the query does not matter: two queries that are
    equal when case is ignored get the same recommendations, the same search
    results and the same record by name. *)
Theorem queries_ignore_case (gs : list Graph) (q q' : string) (k : Z) :
  Spec.equal_ignoring_case q q' →
  recommend gs q k = recommend gs q' k
  ∧ search_graphs gs q = search_graphs gs q'
  ∧ get_graph_by_name gs q = get_graph_by_name gs q'.
Proof.
  intros E. apply lower_eq_ignoring_case in E. repeat split.
  - unfold recommend. destruct gs as [|g gs]; [done|].
    by rewrite (score_each_lower _ q q' _ E).
  - unfold search_graphs. by rewrite E.
  - induction gs as [|g gs IH]; simpl; [done|]. by rewrite E, IH.
Qed.

Lemma queries_ignore_case_witness :
  recommend [Scenario.complex_wall_analysis; Scenario.simple_rectangle] "SIMPLE Wall" 5
  = recommend [Scenario.complex_wall_analysis; Scenario.simple_rectangle] "simple wall" 5
  ∧ search_graphs [Scenario.complex_wall_analysis; Scenario.simple_rectangle] "SIMPLE Wall"
    = search_graphs [Scenario.complex_wall_analysis; Scenario.simple_rectangle] "simple wall"
  ∧ get_graph_by_name [Scenario.complex_wall_analysis; Scenario.simple_rectangle] "SIMPLE Wall"
    = get_graph_by_name [Scenario.complex_wall_analysis; Scenario.simple_rectangle]
        "simple wall".
Proof.
  apply (queries_ignore_case [Scenario.complex_wall_analysis; Scenario.simple_rectangle]
           "SIMPLE Wall" "simple wall" 5).
  apply lower_eq_ignoring_case. reflexivity.
Defined.

(** ** More on the catalog *)

Section LookupFacts.

Implicit Types (g : Graph) (q n : string) (gs : list Graph).

Lemma search_graphs_filter gs q :
  search_graphs gs q = filter (fun g => contains (lower q) (searchable_text g) = true) gs.
Proof. unfold search_graphs. by rewrite search_each_filter. Qed.

Lemma searchable_text_name g :
  ∃ rest, searchable_text g = lower (name g) +:+ " " +:+ rest.
Proof.
  unfold searchable_text. rewrite lower_app, (lower_app " "). eauto.
Qed.

Lemma get_graph_by_name_Some gs n g :
  get_graph_by_name gs n = Some g → g ∈ gs ∧ lower (name g) = lower n.
Proof.
  induction gs as [|g' gs IH]; simpl; [done|].
  destruct (String.eqb_spec (lower (name g')) (lower n)) as [E|E].
  - intros [= <-]. split; [left|done].
  - intros H. destruct (IH H). split; [by right|done].
Qed.

Lemma get_graph_by_name_found gs n g :
  g ∈ gs → lower (name g) = lower n → is_Some (get_graph_by_name gs n).
Proof.
  induction 1 as [g gs|g g' gs Hg IH]; simpl; intros E.
  - by rewrite E, String.eqb_refl.
  - destruct (String.eqb _ _); [done|by apply IH].
Qed.

End LookupFacts.

(** X13. The empty query and the query made of one space match every
    record: [search_graphs] then returns the whole catalog, unchanged. *)
Theorem search_graphs_blank_query (gs : list Graph) :
  search_graphs gs EmptyString = gs ∧ search_graphs gs " " = gs.
Proof.
  rewrite !search_graphs_filter. split; apply filter_all, Forall_forall; intros g _.
  - apply contains_empty.
  - destruct (searchable_text_name g) as [rest ->].
    apply contains_spec. by exists (lower (name g)), rest.
Qed.

(** X14. Narrowing a query narrows the search: when the query [q1] occurs
    inside the query [q2], case ignored, the results for [q2] are a
    subsequence of the results for [q1]. *)
Theorem search_graphs_refines (gs : list Graph) (q1 q2 : string) :
  contains (lower q1) (lower q2) = true →
  search_graphs gs q2 `sublist_of` search_graphs gs q1.
Proof.
  intros Hq. rewrite !search_graphs_filter.
  rewrite <- (list_filter_filter_l
                (fun g => contains (lower q2) (searchable_text g) = true)
                (fun g => contains (lower q1) (searchable_text g) = true)).
  - apply sublist_filter.
  - intros g. by apply contains_trans.
Qed.

Lemma search_graphs_refines_witness :
  search_graphs [Scenario.complex_wall_analysis; Scenario.simple_rectangle] "Wall Analysis"
  `sublist_of`
  search_graphs [Scenario.complex_wall_analysis; Scenario.simple_rectangle] "al".
Proof.
  apply (search_graphs_refines [Scenario.complex_wall_analysis; Scenario.simple_rectangle]
           "al" "Wall Analysis").
  reflexivity.
Defined.

(** X15. A record found by name is a record of the catalog, and searching
    for the same text finds it too. *)
Theorem get_graph_by_name_in_search (gs : list Graph) (n : string) (g : Graph) :
  get_graph_by_name gs n = Some g → g ∈ gs ∧ g ∈ search_graphs gs n.
Proof.
  intros H. apply get_graph_by_name_Some in H as [Hin E].
  split; [done|]. rewrite search_graphs_filter. apply list_elem_of_filter. split; [|done].
  destruct (searchable_text_name g) as [rest ->]. rewrite <- E. apply contains_prefix.
Qed.

Lemma get_graph_by_name_in_search_witness :
  Scenario.simple_rectangle ∈ [Scenario.complex_wall_analysis; Scenario.simple_rectangle]
  ∧ Scenario.simple_rectangle
    ∈ search_graphs [Scenario.complex_wall_analysis; Scenario.simple_rectangle]
        "SIMPLE rectangle".
Proof.
  apply (get_graph_by_name_in_search
           [Scenario.complex_wall_analysis; Scenario.simple_rectangle] "SIMPLE rectangle").
  reflexivity.
Defined.

(** X16. Every record of the catalog can be looked up by its own name: the
    lookup succeeds and returns a record of the catalog with the same name,
    case ignored (an earlier record when two records share the name). *)
Theorem get_graph_by_name_own_name (gs : list Graph) (g : Graph) :
  g ∈ gs →
  ∃ g', get_graph_by_name gs (name g) = Some g'
        ∧ g' ∈ gs
        ∧ Spec.equal_ignoring_case (name g') (name g).
Proof.
  intros Hg. destruct (get_graph_by_name_found gs (name g) g Hg eq_refl) as [g' E].
  exists g'. split; [done|]. apply get_graph_by_name_Some in E as [? ?].
  split; [done|]. by apply lower_eq_ignoring_case.
Qed.

Lemma get_graph_by_name_own_name_witness :
  ∃ g', get_graph_by_name [Scenario.complex_wall_analysis; Scenario.simple_rectangle]
          (name Scenario.simple_rectangle) = Some g'
        ∧ g' ∈ [Scenario.complex_wall_analysis; Scenario.simple_rectangle]
        ∧ Spec.equal_ignoring_case (name g') (name Scenario.simple_rectangle).
Proof.
  apply (get_graph_by_name_own_name
           [Scenario.complex_wall_analysis; Scenario.simple_rectangle]
           Scenario.simple_rectangle).
  right. left.
Defined.

(** X17. The graph records and the count of a rebuild depend on the disk
    and the repository path only, not on what the catalog held before:
    two catalogs on the same repository end with the same graph records. *)
Theorem build_catalog_graphs_from_disk (fs : FileSystem) (self self' c c' : GraphCatalog)
    (n n' : nat) :
  graph_repo_path self = graph_repo_path self' →
  build_catalog fs self = inr (c, n) →
  build_catalog fs self' = inr (c', n') →
  graphs c = graphs c' ∧ n = n' ∧ n = length (graphs c).
Proof.
  intros Hpath. rewrite !build_catalog_result. unfold Outcome.root_found. rewrite <- Hpath.
  destruct (Outcome.walk_error fs self); [discriminate|].
  destruct (Outcome.walk_error fs self'); [intros _; discriminate|].
  destruct (fs_exists fs (graph_repo_path self)) as [e|[]];
    intros [= <- <-] [= <- <-]; by simpl.
Qed.

Lemma build_catalog_graphs_from_disk_witness :
  graphs (set_graphs (init Disk.repo None) (Outcome.walked_graphs Disk.sample Disk.repo))
  = graphs {| graph_repo_path := Disk.repo; docs_path := Some Disk.manuals;
              graphs := Outcome.walked_graphs Disk.guide_deleted Disk.repo;
              docs := [Disk.guide_doc; Disk.guide_doc] |}
  ∧ 3%nat = 3%nat
  ∧ 3%nat
    = length (graphs (set_graphs (init Disk.repo None)
                        (Outcome.walked_graphs Disk.sample Disk.repo))).
Proof.
  apply (build_catalog_graphs_from_disk Disk.sample
           {| graph_repo_path := Disk.repo; docs_path := None;
              graphs := [Disk.blank_metadata]; docs := [] |}
           {| graph_repo_path := Disk.repo; docs_path := Some Disk.manuals;
              graphs := []; docs := [Disk.guide_doc] |}).
  - reflexivity.
  - vm_compute. reflexivity.
  - vm_compute. reflexivity.
Defined.

(** X18. A rebuild never removes a documentation record: when the call
    returns, the list after it is the list before it followed by the records
    of the current walk of the documentation tree, or the list before it
    alone when the repository path does not exist, and the configured paths
    are unchanged. The call fails to return only with the error that a check
    or a walk of the disk raised. *)
Theorem build_catalog_docs_grow (fs : FileSystem) (self : GraphCatalog) :
  match build_catalog fs self with
  | inr (c, n) =>
      docs c
      = docs self
        ++ (if Outcome.root_found fs self
            then Outcome.walked_docs fs (docs_path self) else [])
      ∧ graph_repo_path c = graph_repo_path self
      ∧ docs_path c = docs_path self
  | inl e => Outcome.walk_error fs self = Some e
  end.
Proof.
  rewrite build_catalog_result.
  destruct (Outcome.walk_error fs self); [done|].
  destruct (Outcome.root_found fs self); simpl; by rewrite ?app_nil_r.
Qed.

(** ** More on the parser *)

Section ExtractionFacts.

Implicit Types (fs : FileSystem) (p : Path) (m : metadata) (items : list (string * value)).

(** The record the [try] block builds from a JSON object. *)
Lemma parse_dyn_try_object fs p items :
  fs_load_json fs p = inr (JObj items) →
  parse_dyn_try fs p
  = match view_of (JObj items) with
    | inl e => inl e
    | inr vw =>
        inr {| md_filepath := path_str p; md_filename := path_name p;
               md_name := default (JStr (path_stem p)) (dict_lookup "Name" items);
               md_description := default (JStr EmptyString) (dict_lookup "Description" items);
               md_uuid := default (JStr EmptyString) (dict_lookup "Uuid" items);
               md_author := default (JStr EmptyString) (dict_lookup "Author" items);
               md_category := default (JStr "Uncategorized") (dict_lookup "Category" items);
               md_nodes :=
                 match dict_lookup "Nodes" items with
                 | Some (JList l) => omap node_info_of l
                 | _ => []
                 end;
               md_node_count :=
                 match dict_lookup "Nodes" items with
                 | Some (JList l) => length l
                 | _ => 0%nat
                 end;
               md_connector_count :=
                 match dict_lookup "Connectors" items with
                 | Some (JList l) => length l
                 | _ => 0%nat
                 end;
               md_view := vw |}
    end.
Proof.
  intros Hload. unfold parse_dyn_try, bind. rewrite Hload. simpl.
  destruct (dict_lookup "Nodes" items) as [[]|]; by destruct (view_of (JObj items)).
Qed.

Lemma parse_dyn_try_loaded fs p m :
  parse_dyn_try fs p = inr m → ∃ items, fs_load_json fs p = inr (JObj items).
Proof. intros H. apply parse_dyn_try_name in H as (items & ? & _). eauto. Qed.

Lemma view_of_object items :
  (∃ vw, view_of (JObj items) = inr vw)
  ↔ match dict_lookup "View" items with
    | Some (JObj _) | None => True
    | Some _ => False
    end.
Proof.
  unfold view_of, item. destruct (dict_lookup "View" items) as [[]|]; simpl;
    split; try done; try (by intros [? ?]); eauto.
Qed.

Lemma length_omap_le {A B} (f : A → option B) (l : list A) :
  (length (omap f l) <= length l)%nat.
Proof.
  induction l as [|x l IH]; [done|].
  change (omap f (x :: l)) with (match f x with Some y => y :: omap f l | None => omap f l end).
  destruct (f x); simpl; lia.
Qed.

End ExtractionFacts.

(** X19. [parse_dyn_file] returns a record exactly for a file that loads as
    a JSON object whose [View], when present, is an object too; for every
    other file (unreadable, malformed, another JSON value at the top, a
    [View] that is not an object) it returns [None], and it never raises. *)
Theorem parse_dyn_file_succeeds_iff (fs : FileSystem) (p : Path) :
  (∃ r, parse_dyn_file fs p = inr r)
  ∧ ((∃ m, parse_dyn_file fs p = inr (Some m))
     ↔ ∃ items,
         fs_load_json fs p = inr (JObj items)
         ∧ match dict_lookup "View" items with
           | Some (JObj _) | None => True
           | Some _ => False
           end).
Proof.
  rewrite parse_dyn_file_total. split; [eauto|]. unfold Outcome.parsed. split.
  - intros [m H]. destruct (parse_dyn_try fs p) as [e|m'] eqn:E; [discriminate|].
    destruct (parse_dyn_try_loaded _ _ _ E) as [items Hload]. exists items. split; [done|].
    rewrite (parse_dyn_try_object _ _ _ Hload) in E. apply view_of_object.
    destruct (view_of (JObj items)) as [e|vw]; [discriminate|eauto].
  - intros (items & Hload & Hview). apply view_of_object in Hview as [vw Hvw].
    rewrite (parse_dyn_try_object _ _ _ Hload), Hvw. eauto.
Qed.

(** X20. In a parsed record the node count is the length of the [Nodes]
    list of the file, and the connector count that of [Connectors]; a
    missing key or a value that is not a list counts as 0. The stored nodes
    are the entries of [Nodes] that are objects, in order, so there are
    never more stored nodes than the node count says. *)
Theorem parse_dyn_file_counts (fs : FileSystem) (p : Path) (m : metadata) :
  parse_dyn_file fs p = inr (Some m) →
  (length (md_nodes m) <= md_node_count m)%nat
  ∧ ∃ items,
      fs_load_json fs p = inr (JObj items)
      ∧ md_node_count m
        = match dict_lookup "Nodes" items with
          | Some (JList l) => length l
          | _ => 0%nat
          end
      ∧ md_nodes m
        = match dict_lookup "Nodes" items with
          | Some (JList l) => omap node_info_of l
          | _ => []
          end
      ∧ md_connector_count m
        = match dict_lookup "Connectors" items with
          | Some (JList l) => length l
          | _ => 0%nat
          end.
Proof.
  rewrite parse_dyn_file_total. unfold Outcome.parsed.
  destruct (parse_dyn_try fs p) as [e|m'] eqn:E; [discriminate|]. intros [= ->].
  destruct (parse_dyn_try_loaded _ _ _ E) as [items Hload].
  rewrite (parse_dyn_try_object _ _ _ Hload) in E.
  destruct (view_of (JObj items)) as [e|vw]; [discriminate|]. injection E as <-. simpl.
  split; [|by exists items].
  destruct (dict_lookup "Nodes" items) as [[]|]; simpl; try lia. apply length_omap_le.
Qed.

Lemma parse_dyn_file_counts_witness :
  (length (md_nodes Disk.untitled_metadata) <= md_node_count Disk.untitled_metadata)%nat
  ∧ ∃ items,
      fs_load_json Disk.sample Disk.untitled_dyn = inr (JObj items)
      ∧ md_node_count Disk.untitled_metadata
        = match dict_lookup "Nodes" items with
          | Some (JList l) => length l
          | _ => 0%nat
          end
      ∧ md_nodes Disk.untitled_metadata
        = match dict_lookup "Nodes" items with
          | Some (JList l) => omap node_info_of l
          | _ => []
          end
      ∧ md_connector_count Disk.untitled_metadata
        = match dict_lookup "Connectors" items with
          | Some (JList l) => length l
          | _ => 0%nat
          end.
Proof.
  apply (parse_dyn_file_counts Disk.sample Disk.untitled_dyn Disk.untitled_metadata).
  vm_compute. reflexivity.
Defined.

(** X21. In a parsed record the description, the identifier and the author
    are the values the file gives for [Description], [Uuid] and [Author],
    or the empty string when the key is missing; the category is the value
    of [Category], or [Uncategorized]; the path and the file name are those
    of the file. *)
Theorem parse_dyn_file_defaults (fs : FileSystem) (p : Path) (m : metadata) :
  parse_dyn_file fs p = inr (Some m) →
  ∃ items,
    fs_load_json fs p = inr (JObj items)
    ∧ md_description m = default (JStr EmptyString) (dict_lookup "Description" items)
    ∧ md_uuid m = default (JStr EmptyString) (dict_lookup "Uuid" items)
    ∧ md_author m = default (JStr EmptyString) (dict_lookup "Author" items)
    ∧ md_category m = default (JStr "Uncategorized") (dict_lookup "Category" items)
    ∧ md_filepath m = path_str p
    ∧ md_filename m = path_name p.
Proof.
  rewrite parse_dyn_file_total. unfold Outcome.parsed.
  destruct (parse_dyn_try fs p) as [e|m'] eqn:E; [discriminate|]. intros [= ->].
  destruct (parse_dyn_try_loaded _ _ _ E) as [items Hload].
  rewrite (parse_dyn_try_object _ _ _ Hload) in E.
  destruct (view_of (JObj items)) as [e|vw]; [discriminate|]. injection E as <-.
  by exists items.
Qed.

Lemma parse_dyn_file_defaults_witness :
  ∃ items,
    fs_load_json Disk.sample Disk.untitled_dyn = inr (JObj items)
    ∧ md_description Disk.untitled_metadata
      = default (JStr EmptyString) (dict_lookup "Description" items)
    ∧ md_uuid Disk.untitled_metadata = default (JStr EmptyString) (dict_lookup "Uuid" items)
    ∧ md_author Disk.untitled_metadata
      = default (JStr EmptyString) (dict_lookup "Author" items)
    ∧ md_category Disk.untitled_metadata
      = default (JStr "Uncategorized") (dict_lookup "Category" items)
    ∧ md_filepath Disk.untitled_metadata = path_str Disk.untitled_dyn
    ∧ md_filename Disk.untitled_metadata = path_name Disk.untitled_dyn.
Proof.
  apply (parse_dyn_file_defaults Disk.sample Disk.untitled_dyn Disk.untitled_metadata).
  vm_compute. reflexivity.
Defined.

(** X22. [parse_documentation] never raises, and returns a record exactly
    for a file that exists and can be read; the record holds the text of
    the file and its length. A missing or unreadable file gives the empty
    dictionary. *)
Theorem parse_documentation_succeeds_iff (fs : FileSystem) (p : Path) (d : doc_metadata) :
  (∃ r, parse_documentation fs p = inr r)
  ∧ (parse_documentation fs p = inr (Some d)
     ↔ fs_exists fs p = inr true
       ∧ ∃ content,
           fs_read_text fs p = inr content
           ∧ d = {| doc_filepath := path_str p; doc_filename := path_name p;
                    doc_content := content; doc_size := String.length content |}).
Proof.
  split; [rewrite parse_documentation_total; eauto|].
  unfold parse_documentation, try_except, bind, ret.
  destruct (fs_exists fs p) as [e|[]]; simpl.
  - split; [discriminate|]. intros [? _]. discriminate.
  - destruct (fs_read_text fs p) as [e|content]; split.
    + discriminate.
    + intros (_ & content & H & _). discriminate.
    + intros [= <-]. eauto.
    + intros (_ & content' & [= <-] & ->). done.
  - split; [discriminate|]. intros [? _]. discriminate.
Qed.

Section FrameFacts.

Lemma scan_nodes_same_text (ws : list string) (ns ns' : list NodeRef) (n : nat) :
  map (fun x => (node_name x, node_type x)) ns
  = map (fun x => (node_name x, node_type x)) ns' →
  scan_nodes ws ns n = scan_nodes ws ns' n.
Proof.
  revert ns' n. induction ns as [|x ns IH]; intros [|x' ns'] n; simpl; try done.
  intros [= -> -> E]. by apply IH.
Qed.

End FrameFacts.

(** X23. The score and the explanation depend only on the name, the
    description, the category, the names and types of the nodes and the
    node count: two records equal on these get the same outcome, whatever
    their path, author, identifier, node identifiers, connector count or
    view. *)
Theorem score_graph_reads_text_fields_only (g g' : Graph) (q : string) :
  name g = name g' →
  description g = description g' →
  category g = category g' →
  map (fun x => (node_name x, node_type x)) (nodes g)
  = map (fun x => (node_name x, node_type x)) (nodes g') →
  node_count g = node_count g' →
  _score_graph g q = _score_graph g' q.
Proof.
  intros Hn Hd Hc Hnodes Hcount.
  unfold _score_graph, _score_graph_in, score_name, score_exact_name, score_description,
    score_category, score_nodes, score_complexity, score_simplicity.
  by rewrite Hn, Hd, Hc, Hcount, (scan_nodes_same_text _ _ _ _ Hnodes).
Qed.

Lemma score_graph_reads_text_fields_only_witness :
  _score_graph Scenario.simple_rectangle "simple rectangle"
  = _score_graph Scenario.copied_rectangle "simple rectangle".
Proof.
  apply (score_graph_reads_text_fields_only Scenario.simple_rectangle
           Scenario.copied_rectangle "simple rectangle"); reflexivity.
Defined.
